(** * pytracer: a shallow embedding of [raytracer.py]

    The ray tracer renders spheres lit by point lights through a pinhole
    camera.  This development embeds its classes ([Vector], [Color], [Ray],
    [Sphere], [Scene], [Image]) as Rocq modules and states its specification
    as theorems over them.

    Modelling conventions.
    - Python [int] and [float] values (and numpy scalars) are idealised as
      real numbers [R] with exact arithmetic; [x ** 0.5] is [sqrt x].
      Integer-valued quantities that drive control flow (image sizes, pixel
      indices, byte values) are [Z].
    - A Python exception is a value [Raise e] of the [result] type; the
      exceptions that can arise are listed in [exn].  Division of Python
      numbers by zero raises [ZeroDivisionError] and is written [py_div];
      division of numpy scalars never raises and is Rocq's total [/], so
      a theorem about the value of such a quotient assumes that its divisor
      is not zero.
    - Local variables that are assigned inside a loop are threaded through
      the loop as state; a variable that may be unbound is an [option]. *)

From Stdlib Require Import Reals Lra Lia ZArith List String Ascii.
From Stdlib Require Import DecimalString.
From stdpp Require Import base list.
Import ListNotations.

Open Scope R_scope.

(** ** Exceptions and results *)

Inductive exn : Set :=
| TypeError
| UnboundLocalError
| IndexError
| ZeroDivisionError
| ValueError.

Inductive result (A : Type) : Type :=
| Ok (a : A)
| Raise (e : exn).

Arguments Ok {A} a.
Arguments Raise {A} e.

#[global] Instance result_ret : MRet result := fun _ a => Ok a.

#[global] Instance result_bind : MBind result := fun _ _ f m =>
  match m with
  | Ok a => f a
  | Raise e => Raise e
  end.

(** The value of a module-level constant whose initialiser succeeded. *)
Definition result_get {A} (default : A) (m : result A) : A :=
  match m with
  | Ok a => a
  | Raise _ => default
  end.

(** [for x in xs: s = body(s, x)], stopping at the first exception. *)
Fixpoint for_in {A S : Type} (xs : list A) (body : S -> A -> result S) (s : S)
  : result S :=
  match xs with
  | [] => Ok s
  | a :: xs' => s' ← body s a; for_in xs' body s'
  end.

(** ** Python built-ins *)

(** [range(n)]: empty when [n <= 0]. *)
Definition range (n : Z) : list Z := map Z.of_nat (seq 0 (Z.to_nat n)).

(** [max(a, b)] returns [b] only when [b > a]. *)
Definition py_max (a b : R) : R := if Rlt_dec a b then b else a.

(** [min(a, b)] on integers returns [b] only when [b < a]. *)
Definition py_min_Z (a b : Z) : Z := if (b <? a)%Z then b else a.

Definition py_max_Z (a b : Z) : Z := if (a <? b)%Z then b else a.

(** [a / b] on Python numbers. *)
Definition py_div (a b : R) : result R :=
  if Req_dec_T b 0 then Raise ZeroDivisionError else Ok (a / b).

(** [round(v)] with no digits argument: the nearest integer, a tie going to
    the even neighbour. *)
Definition py_round (v : R) : Z :=
  let f := Zfloor v in
  let frac := v - IZR f in
  if Rlt_dec frac (1 / 2) then f
  else if Rlt_dec (1 / 2) frac then (f + 1)%Z
  else if Z.even f then f else (f + 1)%Z.

(** The position addressed by index [i] in a list of length [len]: a negative
    index counts from the end, anything else outside the list is an
    [IndexError]. *)
Definition py_index (len : nat) (i : Z) : result nat :=
  if ((0 <=? i) && (i <? Z.of_nat len))%Z then Ok (Z.to_nat i)
  else if ((i <? 0) && (- Z.of_nat len <=? i))%Z
       then Ok (Z.to_nat (i + Z.of_nat len))
       else Raise IndexError.

(** [l[i]] *)
Definition py_getitem {A} (l : list A) (i : Z) : result A :=
  k ← py_index (length l) i;
  match l !! k with
  | Some a => Ok a
  | None => Raise IndexError
  end.

(** [l[i] = v] *)
Definition py_setitem {A} (l : list A) (i : Z) (v : A) : result (list A) :=
  k ← py_index (length l) i;
  Ok (<[k := v]> l).

(** ** class Vector *)

Module Vector.

Record t : Type := mk { x : R; y : R; z : R }.

Definition add (self other : t) : t :=
  mk (x self + x other) (y self + y other) (z self + z other).

Definition sub (self other : t) : t :=
  mk (x self - x other) (y self - y other) (z self - z other).

(** [__mul__] with a [Vector] operand. *)
Definition mul (self other : t) : t :=
  mk (x self * x other) (y self * y other) (z self * z other).

(** [__mul__] and [__rmul__] with a number. *)
Definition scale (k : R) (self : t) : t :=
  mk (x self * k) (y self * k) (z self * k).

Definition truediv (self : t) (scalar : R) : t :=
  mk (x self / scalar) (y self / scalar) (z self / scalar).

Definition dot (self other : t) : R :=
  x self * x other + y self * y other + z self * z other.

Definition matmul (self other : t) : R := dot self other.

Definition cross (self other : t) : t :=
  mk (y self * z other - z self * y other)
     (z self * x other - x self * z other)
     (x self * y other - y self * x other).

Definition squared_norm (self : t) : R := dot self self.

Definition norm (self : t) : R :=
  sqrt (x self * x self + y self * y self + z self * z self).

Definition normalize (self : t) : t := truediv self (norm self).

End Vector.

(** [class Point(Vector)]: the same data under another name. *)
Definition Point : Type := Vector.t.

Definition ORIGIN : Point := Vector.mk 0 0 0.

(** ** class Color *)

Module Color.

Record t : Type := mk { r : R; g : R; b : R }.

Definition rgb (self : t) : list R := [r self; g self; b self].

Definition add (self other : t) : t :=
  mk (r self + r other) (g self + g other) (b self + b other).

(** [__mul__] and [__rmul__]. *)
Definition scale (self : t) (k : R) : t :=
  mk (r self * k) (g self * k) (b self * k).

Definition hex_digit (c : ascii) : result Z :=
  let n := Z.of_nat (nat_of_ascii c) in
  if ((48 <=? n) && (n <=? 57))%Z then Ok (n - 48)%Z
  else if ((65 <=? n) && (n <=? 70))%Z then Ok (n - 55)%Z
  else if ((97 <=? n) && (n <=? 102))%Z then Ok (n - 87)%Z
  else Raise ValueError.

(** [int(s, 16)] for a string of hexadecimal digits; the signs, blanks and
    prefixes that [int] also accepts are not modelled and count as
    malformed. *)
Fixpoint int16_from (acc : Z) (s : string) : result Z :=
  match s with
  | EmptyString => Ok acc
  | String c s' => d ← hex_digit c; int16_from (16 * acc + d)%Z s'
  end.

Definition int16 (s : string) : result Z :=
  match s with
  | EmptyString => Raise ValueError
  | _ => int16_from 0%Z s
  end.

Definition from_hex (hexcolor : string) : result t :=
  r ← int16 (substring 1 2 hexcolor);
  g ← int16 (substring 3 2 hexcolor);
  b ← int16 (substring 5 2 hexcolor);
  Ok (mk (IZR r / 255) (IZR g / 255) (IZR b / 255)).

End Color.

Definition RED : Color.t := result_get (Color.mk 0 0 0) (Color.from_hex "#FF0000").
Definition GREEN : Color.t := result_get (Color.mk 0 0 0) (Color.from_hex "#00FF00").
Definition BLUE : Color.t := result_get (Color.mk 0 0 0) (Color.from_hex "#0000FF").
Definition BLACK : Color.t := result_get (Color.mk 0 0 0) (Color.from_hex "#000000").
Definition WHITE : Color.t := result_get (Color.mk 0 0 0) (Color.from_hex "#FFFFFF").

(** ** class Ray *)

Module Ray.

Record t : Type := mk { origin : Point; direction : Vector.t }.

Definition point_at (self : t) (k : R) : Point :=
  Vector.add (origin self) (Vector.scale k (direction self)).

Definition bg_color (self : t) : Color.t :=
  let k := Vector.y (Vector.normalize (direction self)) in
  Color.add (Color.scale WHITE k) (Color.scale BLACK (1 - k)).

Definition from_points (tail head : Point) : t :=
  mk tail (Vector.sub head tail).

End Ray.

(** ** class Material, class Light *)

Module Material.

(** [specular_k] is used as an exponent only; it is taken to be a natural
    number, as its default (50) is. *)
Record t : Type := mk {
  color : Color.t;
  ambient : R;
  diffuse : R;
  specular : R;
  specular_k : nat
}.

(** The constructor with its default arguments. *)
Definition default (color : Color.t) : t := mk color (5 / 100) 1 1 50.

End Material.

Module Light.

Record t : Type := mk { position : Point; color : Color.t }.

End Light.

(** ** class Sphere *)

Module Sphere.

Record t : Type := mk { center : Point; radius : R; material : Material.t }.

Definition intersect (self : t) (ray : Ray.t) : option R :=
  let center_to_origin := Vector.sub (Ray.origin ray) (center self) in
  let a := Vector.squared_norm (Ray.direction ray) in
  let b := Vector.matmul (Vector.scale 2 center_to_origin) (Ray.direction ray) in
  let c := Vector.squared_norm center_to_origin - radius self ^ 2 in
  let d := b ^ 2 - 4 * a * c in
  if Rle_dec 0 d then
    let t := (- b - sqrt d) / (2 * a) in
    if Rle_dec 0 t then Some t else None
  else None.

Definition normal_at (self : t) (point_on_sphere : Point) : Vector.t :=
  Vector.normalize (Vector.sub point_on_sphere (center self)).

End Sphere.

(** ** class Image *)

Module Image.

Record t : Type := mk {
  width : Z;
  height : Z;
  pixels : list (list (option Color.t))
}.

(** [__init__]: [height] fresh rows of [width] empty cells. *)
Definition init (width height : Z) : t :=
  mk width height
     (map (fun _ => map (fun _ => None) (range width)) (range height)).

(** [self.pixels[y][x] = color].  The rows are distinct list objects, so
    the write changes row [y] only. *)
Definition set_pixel (self : t) (x y : Z) (color : Color.t) : result t :=
  row ← py_getitem (pixels self) y;
  row' ← py_setitem row x (Some color);
  pixels' ← py_setitem (pixels self) y row';
  Ok (mk (width self) (height self) pixels').

(** The nested function [to_byte] of [write_ppm]. *)
Definition to_byte (color : Color.t) : list Z :=
  map (fun val => py_max_Z (py_min_Z (py_round (val * 255)) 255) 0)
      (Color.rgb color).

End Image.

(** ** Image.write_ppm

    The method is modelled by the text that it hands to [ppm_file.write],
    piece after piece, for a path that the caller supplies; asking the
    command line for the path and the failures of [open] itself are left
    out.  Its exceptions are those of [io_exn]; a run that fails carries no
    text. *)

Inductive io_exn : Set :=
| AttributeError
| SyntaxError
| Core (e : exn).

Inductive io_result (A : Type) : Type :=
| Wrote (a : A)
| Failed (e : io_exn).

Arguments Wrote {A} a.
Arguments Failed {A} e.

Definition newline : string := String (ascii_of_nat 10) EmptyString.

Definition tab : string := String (ascii_of_nat 9) EmptyString.

(** [str(n)] for an integer. *)
Definition str_int (n : Z) : string := NilZero.string_of_int (Z.to_int n).

(** [s.rjust(width)]: blanks in front, up to the width. *)
Definition pad_left (width : nat) (s : string) : string :=
  (string_of_list_ascii (repeat " "%char (width - String.length s)) ++ s)
    %string.

(** The format [{n:3}] of an integer. *)
Definition format3 (n : Z) : string := pad_left 3 (str_int n).

(** [s.endswith(suffix)] *)
Definition endswith (s suffix : string) : bool :=
  (String.length suffix <=? String.length s)%nat
  && String.eqb
       (substring (String.length s - String.length suffix)
                  (String.length suffix) s)
       suffix.

(** One iteration of the inner loop: [r, g, b = to_byte(color)] and the
    write of the three numbers. *)
Definition write_pixel (out : string) (color : option Color.t)
  : io_result string :=
  match color with
  | None => Failed AttributeError
  | Some c =>
      match Image.to_byte c with
      | [r; g; b] =>
          Wrote (out ++ format3 r ++ " " ++ format3 g ++ " " ++ format3 b
                 ++ tab)%string
      | _ => Failed (Core ValueError)
      end
  end.

Fixpoint write_cells (out : string) (row : list (option Color.t))
  : io_result string :=
  match row with
  | [] => Wrote out
  | color :: row' =>
      match write_pixel out color with
      | Wrote out' => write_cells out' row'
      | Failed e => Failed e
      end
  end.

Fixpoint write_rows (out : string) (rows : list (list (option Color.t)))
  : io_result string :=
  match rows with
  | [] => Wrote out
  | row :: rows' =>
      match write_cells out row with
      | Wrote out' => write_rows (out' ++ newline)%string rows'
      | Failed e => Failed e
      end
  end.

Definition ppm_header (self : Image.t) : string :=
  ("P3 " ++ str_int (Image.width self) ++ " " ++ str_int (Image.height self)
   ++ newline ++ "255" ++ newline)%string.

Definition write_ppm (self : Image.t) (ppm_file_path : string)
  : io_result string :=
  if endswith ppm_file_path ".ppm"
  then write_rows (ppm_header self) (Image.pixels self)
  else Failed SyntaxError.

(** ** class Scene *)

Module Scene.

Record t : Type := mk {
  camera : option Point;
  objects : list Sphere.t;
  lights : list Light.t
}.

Definition init : t := mk None [] [].

Definition set_camera (self : t) (camera : Point) : t :=
  mk (Some camera) (objects self) (lights self).

Definition add_objects (self : t) (new : list Sphere.t) : t :=
  mk (camera self) (objects self ++ new) (lights self).

Definition add_lights (self : t) (new : list Light.t) : t :=
  mk (camera self) (objects self) (lights self ++ new).

(** One iteration of the loop of [find_nearest] over the state
    [(dist_min, object_hit)]. *)
Definition find_nearest_step (ray : Ray.t)
    (st : option R * option Sphere.t) (_object : Sphere.t)
  : result (option R * option Sphere.t) :=
  match Sphere.intersect _object ray with
  | None => Ok st
  | Some dist =>
      match snd st, fst st with
      | None, _ => Ok (Some dist, Some _object)
      | Some _, Some dist_min =>
          if Rlt_dec dist dist_min then Ok (Some dist, Some _object)
          else Ok st
      | Some _, None => Raise TypeError
      end
  end.

Definition find_nearest (self : t) (ray : Ray.t)
  : result (option Point * option Sphere.t) :=
  st ← for_in (objects self) (find_nearest_step ray) (None, None);
  match snd st, fst st with
  | None, _ => Ok (None, None)
  | Some object_hit, Some dist_min =>
      Ok (Some (Ray.point_at ray dist_min), Some object_hit)
  | Some _, None => Raise TypeError
  end.

(** The value assigned to [color] by one iteration of the loop of
    [color_at]: the diffuse term, then [+=] the specular term. *)
Definition light_color (normal : Vector.t) (material : Material.t)
    (to_cam : Vector.t) (point_hit : Point) (light : Light.t) : Color.t :=
  let to_light := Ray.from_points point_hit (Light.position light) in
  let color :=
    Color.scale
      (Color.scale (Material.color material) (Material.diffuse material))
      (py_max 0 (Vector.matmul normal (Ray.direction to_light))) in
  let half_vector :=
    Vector.normalize (Vector.add (Ray.direction to_light) to_cam) in
  Color.add color
    (Color.scale
       (Color.scale (Light.color light) (Material.specular material))
       (py_max 0 (Vector.matmul normal half_vector)
          ^ Material.specular_k material)).

(** The loop variable [color] is unbound before the first iteration; each
    iteration assigns it afresh. *)
Definition color_at (self : t) (ray : Ray.t) (point_hit : Point)
    (object_hit : Sphere.t) : result Color.t :=
  let normal := Sphere.normal_at object_hit point_hit in
  let material := Sphere.material object_hit in
  match camera self with
  | None => Raise TypeError
  | Some cam =>
      let to_cam := Vector.sub cam point_hit in
      let color :=
        fold_left
          (fun (_ : option Color.t) light =>
             Some (light_color normal material to_cam point_hit light))
          (lights self) None in
      match color with
      | Some c => Ok c
      | None => Raise UnboundLocalError
      end
  end.

Definition trace (self : t) (ray : Ray.t) : result Color.t :=
  found ← find_nearest self ray;
  match snd found, fst found with
  | Some object_hit, Some point_hit => color_at self ray point_hit object_hit
  | Some _, None => Raise TypeError
  | None, _ => Ok (Ray.bg_color ray)
  end.

(** The state of the loops of [render]: the image under construction and,
    as a ghost record, the coordinates passed to [set_pixel] so far (most
    recent first). *)
Definition render_state : Type := (Image.t * list (Z * Z))%type.

Definition render_pixel (self : t) (x0 x_step y : R) (j : Z)
    (st : render_state) (i : Z) : result render_state :=
  let x := x0 + IZR i * x_step in
  match camera self with
  | None => Raise TypeError
  | Some cam =>
      let ray := Ray.from_points cam (Vector.mk x y 0) in
      color ← trace self ray;
      image ← Image.set_pixel (fst st) i j color;
      Ok (image, (i, j) :: snd st)
  end.

Definition render_row (self : t) (width : Z) (x0 x_step y0 y_step : R)
    (st : render_state) (j : Z) : result render_state :=
  let y := y0 + IZR j * y_step in
  for_in (range width) (render_pixel self x0 x_step y j) st.

Definition render_run (self : t) (width height : Z) : result render_state :=
  ratio ← py_div (IZR width) (IZR height);
  let x0 := -1 in
  let x1 := 1 in
  x_step ← py_div (x1 - x0) (IZR (width - 1));
  y0 ← py_div (-1) ratio;
  y1 ← py_div 1 ratio;
  y_step ← py_div (y1 - y0) (IZR (height - 1));
  let image := Image.init width height in
  for_in (range height) (render_row self width x0 x_step y0 y_step)
         (image, []).

Definition render (self : t) (width height : Z) : result Image.t :=
  st ← render_run self width height;
  Ok (fst st).

End Scene.

(** ** The quadratic of the specification

    For the ray [O + t D] and the sphere of centre [C] and radius [r]:
    [a = |D|^2], [b = 2 (O - C) . D], [c = |O - C|^2 - r^2], the discriminant
    [b^2 - 4 a c] and the two roots. *)

Definition quad_a (ray : Ray.t) : R :=
  Vector.squared_norm (Ray.direction ray).

Definition quad_b (s : Sphere.t) (ray : Ray.t) : R :=
  2 * Vector.dot (Vector.sub (Ray.origin ray) (Sphere.center s))
                 (Ray.direction ray).

Definition quad_c (s : Sphere.t) (ray : Ray.t) : R :=
  Vector.squared_norm (Vector.sub (Ray.origin ray) (Sphere.center s))
  - Sphere.radius s * Sphere.radius s.

Definition discriminant (s : Sphere.t) (ray : Ray.t) : R :=
  quad_b s ray * quad_b s ray - 4 * quad_a ray * quad_c s ray.

Definition near_root (s : Sphere.t) (ray : Ray.t) : R :=
  (- quad_b s ray - sqrt (discriminant s ray)) / (2 * quad_a ray).

Definition far_root (s : Sphere.t) (ray : Ray.t) : R :=
  (- quad_b s ray + sqrt (discriminant s ray)) / (2 * quad_a ray).

(** ** Shading as the specification words it

    The contribution of one light, with the direction to the light and the
    direction to the camera normalised before use, and the colour of a hit
    as the sum of the contributions of all lights. *)

Definition spec_light_color (normal : Vector.t) (material : Material.t)
    (camera point_hit : Point) (light : Light.t) : Color.t :=
  let to_light :=
    Vector.normalize (Vector.sub (Light.position light) point_hit) in
  let to_cam := Vector.normalize (Vector.sub camera point_hit) in
  let h := Vector.normalize (Vector.add to_light to_cam) in
  Color.add
    (Color.scale
       (Color.scale (Material.color material) (Material.diffuse material))
       (Rmax 0 (Vector.dot normal to_light)))
    (Color.scale
       (Color.scale (Light.color light) (Material.specular material))
       (Rmax 0 (Vector.dot normal h) ^ Material.specular_k material)).

Definition sum_colors (cs : list Color.t) : Color.t :=
  fold_right Color.add (Color.mk 0 0 0) cs.

(** ** A small scene

    A white unit sphere at the origin seen from (0, 0, -5) along the z axis;
    the ray from the camera meets it at (0, 0, -1). *)

Definition demo_camera : Point := Vector.mk 0 0 (-5).

Definition demo_sphere : Sphere.t :=
  Sphere.mk ORIGIN 1 (Material.default WHITE).

Definition demo_ray : Ray.t := Ray.mk demo_camera (Vector.mk 0 0 1).

Definition demo_point : Point := Vector.mk 0 0 (-1).

Definition white_light : Light.t := Light.mk (Vector.mk 0 0 (-3)) WHITE.

Definition red_light : Light.t := Light.mk (Vector.mk 0 0 (-2)) RED.

Definition demo_scene (lights : list Light.t) : Scene.t :=
  Scene.add_lights
    (Scene.add_objects (Scene.set_camera Scene.init demo_camera)
                       [demo_sphere])
    lights.

(** ** The state of the nearest-hit search

    What the loop of [find_nearest] has established after the objects
    [seen]: either nothing was hit, or the state holds the first object of
    least distance. *)

Definition nearest_so_far (ray : Ray.t) (seen : list Sphere.t)
    (st : option R * option Sphere.t) : Prop :=
  (st = (None, None)
   /\ forall o, In o seen -> Sphere.intersect o ray = None)
  \/ (exists (k : nat) (o : Sphere.t) (t : R),
        st = (Some t, Some o)
        /\ seen !! k = Some o
        /\ Sphere.intersect o ray = Some t
        /\ forall (j : nat) (o' : Sphere.t) (t' : R),
             seen !! j = Some o' ->
             Sphere.intersect o' ray = Some t' ->
             t <= t' /\ ((j < k)%nat -> t < t')).

(** ** The grid of an image

    An image is well formed when its grid has [height] rows of [width]
    cells; [cell img x y] is the content of the cell in column [x] of row
    [y], and [wrap n i] is the position that the index [i] addresses in a
    list of length [n] when [- n <= i < n]. *)

Definition wf_image (img : Image.t) : Prop :=
  length (Image.pixels img) = Z.to_nat (Image.height img)
  /\ Forall (fun row : list (option Color.t) =>
               length row = Z.to_nat (Image.width img))
            (Image.pixels img).

Definition cell (img : Image.t) (x y : nat) : option (option Color.t) :=
  match Image.pixels img !! y with
  | Some row => row !! x
  | None => None
  end.

Definition wrap (n i : Z) : Z := if (0 <=? i)%Z then i else (i + n)%Z.

(** The coordinates visited by the loops of [render], in order. *)
Definition pixel_order (width height : Z) : list (Z * Z) :=
  flat_map (fun j => map (fun i => (i, j)) (range width)) (range height).

(** What holds of the state of [render] between two writes: the image keeps
    its shape, and every coordinate recorded as written holds a colour. *)
Definition render_inv (width height : Z) (st : Scene.render_state) : Prop :=
  wf_image (fst st)
  /\ Image.width (fst st) = width
  /\ Image.height (fst st) = height
  /\ forall x y : Z,
       In (x, y) (snd st) ->
       exists c, cell (fst st) (Z.to_nat x) (Z.to_nat y) = Some (Some c).

(** ** The rays of [render]

    [sample_ray] is the ray that the inner loop of [render] builds for the
    pixel [(i, j)] from the values that the function computed before its
    loops, and [pixel_ray] is that ray with those values as
    [render width height] computes them. *)

Definition sample_ray (cam : Point) (x0 x_step y0 y_step : R) (i j : Z)
  : Ray.t :=
  Ray.from_points cam
    (Vector.mk (x0 + IZR i * x_step) (y0 + IZR j * y_step) 0).

Definition pixel_ray (cam : Point) (width height i j : Z) : Ray.t :=
  let ratio := IZR width / IZR height in
  let x0 := -1 in
  let x1 := 1 in
  let x_step := (x1 - x0) / IZR (width - 1) in
  let y0 := -1 / ratio in
  let y1 := 1 / ratio in
  let y_step := (y1 - y0) / IZR (height - 1) in
  sample_ray cam x0 x_step y0 y_step i j.

(** What holds of the state of [render] between two writes, with the
    content of the cells: every coordinate recorded as written is not
    negative and holds the colour traced for its ray. *)
Definition render_content_inv (sc : Scene.t) (cam : Point)
    (x0 x_step y0 y_step : R) (width height : Z) (st : Scene.render_state)
  : Prop :=
  wf_image (fst st)
  /\ Image.width (fst st) = width
  /\ Image.height (fst st) = height
  /\ forall x y : Z,
       In (x, y) (snd st) ->
       (0 <= x)%Z /\ (0 <= y)%Z
       /\ exists c,
            Scene.trace sc (sample_ray cam x0 x_step y0 y_step x y) = Ok c
            /\ cell (fst st) (Z.to_nat x) (Z.to_nat y) = Some (Some c).

(** ** Clamping to a range of integers *)

Definition clamp (lo hi n : Z) : Z := Z.max lo (Z.min hi n).

(** * Properties *)

(** ** Vectors *)

Lemma squared_norm_nonneg (v : Vector.t) : 0 <= Vector.squared_norm v.
Proof.
  destruct v as [a b c]; unfold Vector.squared_norm, Vector.dot; simpl; nra.
Qed.

Lemma squared_norm_pos (v : Vector.t) :
  v <> Vector.mk 0 0 0 -> 0 < Vector.squared_norm v.
Proof.
  destruct v as [a b c]; intros Hv.
  unfold Vector.squared_norm, Vector.dot; simpl.
  destruct (Req_dec_T a 0) as [-> | Ha]; [ | nra ].
  destruct (Req_dec_T b 0) as [-> | Hb]; [ | nra ].
  destruct (Req_dec_T c 0) as [-> | Hc]; [ | nra ].
  now contradict Hv.
Qed.

Lemma norm_sqr (v : Vector.t) :
  Vector.norm v * Vector.norm v = Vector.squared_norm v.
Proof.
  unfold Vector.norm. rewrite sqrt_sqrt; [ reflexivity | ].
  apply (squared_norm_nonneg v).
Qed.

Lemma norm_nonneg (v : Vector.t) : 0 <= Vector.norm v.
Proof. apply sqrt_pos. Qed.

Lemma norm_pos (v : Vector.t) : v <> Vector.mk 0 0 0 -> 0 < Vector.norm v.
Proof.
  intros Hv. pose proof (squared_norm_pos v Hv) as Hp.
  pose proof (norm_nonneg v) as Hn. pose proof (norm_sqr v) as Hs. nra.
Qed.

(** ** Sphere.intersect *)

Lemma intersect_quadratic (s : Sphere.t) (ray : Ray.t) :
  Sphere.intersect s ray =
  if Rle_dec 0 (discriminant s ray)
  then if Rle_dec 0 (near_root s ray) then Some (near_root s ray) else None
  else None.
Proof.
  unfold Sphere.intersect, near_root, discriminant.
  replace (Vector.matmul
             (Vector.scale 2 (Vector.sub (Ray.origin ray) (Sphere.center s)))
             (Ray.direction ray)) with (quad_b s ray)
    by (unfold quad_b, Vector.matmul, Vector.dot, Vector.scale; simpl; ring).
  replace (quad_b s ray ^ 2
           - 4 * Vector.squared_norm (Ray.direction ray)
             * (Vector.squared_norm
                  (Vector.sub (Ray.origin ray) (Sphere.center s))
                - Sphere.radius s ^ 2))
    with (quad_b s ray * quad_b s ray - 4 * quad_a ray * quad_c s ray)
    by (unfold quad_a, quad_c; ring).
  reflexivity.
Qed.

Lemma near_root_lt_far_root (s : Sphere.t) (ray : Ray.t) :
  Ray.direction ray <> Vector.mk 0 0 0 ->
  0 < discriminant s ray ->
  near_root s ray < far_root s ray.
Proof.
  intros Hdir Hd.
  pose proof (squared_norm_pos _ Hdir) as Ha. fold (quad_a ray) in Ha.
  pose proof (sqrt_lt_R0 _ Hd) as Hs.
  unfold near_root, far_root, Rdiv.
  apply Rmult_lt_compat_r; [ apply Rinv_0_lt_compat; lra | lra ].
Qed.

(** C3: for a ray whose direction is not the zero vector, [Sphere.intersect]
    answers [None] exactly when the discriminant is negative or the near
    root is negative; in every other case it answers the near root, and
    what it answers is never the far root when the two roots differ. *)
Theorem intersect_near_root_or_none (s : Sphere.t) (ray : Ray.t) :
  Ray.direction ray <> Vector.mk 0 0 0 ->
  (Sphere.intersect s ray = None <->
   discriminant s ray < 0 \/ near_root s ray < 0)
  /\ (~ (discriminant s ray < 0 \/ near_root s ray < 0) ->
      Sphere.intersect s ray = Some (near_root s ray))
  /\ (forall t, Sphere.intersect s ray = Some t ->
      t = near_root s ray /\ (0 < discriminant s ray -> t <> far_root s ray)).
Proof.
  intros Hdir. rewrite intersect_quadratic.
  destruct (Rle_dec 0 (discriminant s ray)) as [Hd | Hd];
    [ destruct (Rle_dec 0 (near_root s ray)) as [Ht | Ht] | ].
  - split; [ | split ].
    + split; [ discriminate | intros [H | H]; lra ].
    + reflexivity.
    + intros t [= <-]. split; [ reflexivity | ].
      intros Hpos. pose proof (near_root_lt_far_root s ray Hdir Hpos). lra.
  - split; [ | split ].
    + split; [ intros _; right; lra | reflexivity ].
    + intros H. exfalso. apply H. right. lra.
    + discriminate.
  - split; [ | split ].
    + split; [ intros _; left; lra | reflexivity ].
    + intros H. exfalso. apply H. left. lra.
    + discriminate.
Qed.

(** The quadratic of a ray that starts at [o] and has the unit direction
    towards the centre of the sphere, at distance [d] from it. *)
Lemma toward_center_quadratic (s : Sphere.t) (o : Point) :
  0 < Vector.norm (Vector.sub (Sphere.center s) o) ->
  quad_a (Ray.mk o (Vector.normalize (Vector.sub (Sphere.center s) o))) = 1
  /\ quad_b s (Ray.mk o (Vector.normalize (Vector.sub (Sphere.center s) o)))
     = - 2 * Vector.norm (Vector.sub (Sphere.center s) o)
  /\ quad_c s (Ray.mk o (Vector.normalize (Vector.sub (Sphere.center s) o)))
     = Vector.norm (Vector.sub (Sphere.center s) o)
       * Vector.norm (Vector.sub (Sphere.center s) o)
       - Sphere.radius s * Sphere.radius s.
Proof.
  pose proof (norm_sqr (Vector.sub (Sphere.center s) o)) as Hs.
  unfold Vector.normalize.
  remember (Vector.norm (Vector.sub (Sphere.center s) o)) as d eqn:Ed.
  clear Ed. intros Hd.
  destruct s as [[cx cy cz] r m], o as [ox oy oz].
  unfold quad_a, quad_b, quad_c, Vector.truediv, Vector.squared_norm,
    Vector.dot, Vector.sub in *; simpl in *.
  split; [ | split ].
  - transitivity
      (((cx - ox) * (cx - ox) + (cy - oy) * (cy - oy) + (cz - oz) * (cz - oz))
       / (d * d)); [ | rewrite <- Hs ]; field; lra.
  - transitivity
      (- 2 * (((cx - ox) * (cx - ox) + (cy - oy) * (cy - oy)
               + (cz - oz) * (cz - oz)) / d)); [ | rewrite <- Hs ];
      field; lra.
  - rewrite Hs. ring.
Qed.

Lemma toward_center_near_root (s : Sphere.t) (o : Point) :
  0 < Vector.norm (Vector.sub (Sphere.center s) o) ->
  0 <= Sphere.radius s ->
  discriminant s (Ray.mk o (Vector.normalize (Vector.sub (Sphere.center s) o)))
  = (2 * Sphere.radius s) * (2 * Sphere.radius s)
  /\ near_root s (Ray.mk o (Vector.normalize (Vector.sub (Sphere.center s) o)))
     = Vector.norm (Vector.sub (Sphere.center s) o) - Sphere.radius s.
Proof.
  intros Hd Hr.
  destruct (toward_center_quadratic s o Hd) as (Ha & Hb & Hc).
  assert (Hdisc : discriminant s
            (Ray.mk o (Vector.normalize (Vector.sub (Sphere.center s) o)))
          = (2 * Sphere.radius s) * (2 * Sphere.radius s))
    by (unfold discriminant; rewrite Ha, Hb, Hc; ring).
  split; [ exact Hdisc | ].
  unfold near_root. rewrite Hdisc, Ha, Hb, sqrt_square by lra. field.
Qed.

(** C9: a ray that starts outside a sphere of radius [r > 0], at distance
    [d > r] from its centre, and whose direction is the unit vector towards
    the centre, meets the sphere at [t = d - r]. *)
Theorem intersect_toward_center (s : Sphere.t) (o : Point) :
  let d := Vector.norm (Vector.sub (Sphere.center s) o) in
  0 < Sphere.radius s ->
  Sphere.radius s < d ->
  Sphere.intersect s
    (Ray.mk o (Vector.normalize (Vector.sub (Sphere.center s) o)))
  = Some (d - Sphere.radius s).
Proof.
  intros d Hr Hd.
  assert (Hpos : 0 < d) by lra.
  destruct (toward_center_near_root s o Hpos) as [Hdisc Hroot]; [ lra | ].
  rewrite intersect_quadratic, Hdisc, Hroot. fold d.
  destruct (Rle_dec 0 (2 * Sphere.radius s * (2 * Sphere.radius s)))
    as [_ | Hn]; [ | exfalso; apply Hn; nra ].
  destruct (Rle_dec 0 (d - Sphere.radius s)) as [_ | Hn];
    [ reflexivity | exfalso; apply Hn; lra ].
Qed.

(** ** Rounding and byte conversion *)

Lemma py_round_below (n : Z) (v : R) :
  IZR n <= v < IZR n + 1 / 2 -> py_round v = n.
Proof.
  intros Hv. unfold py_round.
  rewrite (Zfloor_eq n v) by lra.
  destruct (Rlt_dec (v - IZR n) (1 / 2)); [ reflexivity | lra ].
Qed.

Lemma py_round_above (n : Z) (v : R) :
  IZR n + 1 / 2 < v < IZR n + 1 -> py_round v = (n + 1)%Z.
Proof.
  intros Hv. unfold py_round.
  rewrite (Zfloor_eq n v) by lra.
  destruct (Rlt_dec (v - IZR n) (1 / 2)); [ lra | ].
  destruct (Rlt_dec (1 / 2) (v - IZR n)); [ reflexivity | lra ].
Qed.

Lemma py_round_tie (n : Z) (v : R) :
  v = IZR n + 1 / 2 -> py_round v = if Z.even n then n else (n + 1)%Z.
Proof.
  intros Hv. unfold py_round.
  rewrite (Zfloor_eq n v) by lra.
  destruct (Rlt_dec (v - IZR n) (1 / 2)); [ lra | ].
  destruct (Rlt_dec (1 / 2) (v - IZR n)); [ lra | reflexivity ].
Qed.

Lemma py_round_nearest (v : R) : Rabs (IZR (py_round v) - v) <= 1 / 2.
Proof.
  pose proof (Zfloor_bound v) as Hb. unfold py_round.
  destruct (Rlt_dec (v - IZR (Zfloor v)) (1 / 2)) as [Hlo | Hlo].
  - apply Rabs_le. lra.
  - assert (Hup : Rabs (IZR (Zfloor v + 1) - v) <= 1 / 2)
      by (rewrite plus_IZR; apply Rabs_le; lra).
    destruct (Rlt_dec (1 / 2) (v - IZR (Zfloor v))) as [Hhi | Hhi];
      [ exact Hup | ].
    destruct (Z.even (Zfloor v)); [ apply Rabs_le; lra | exact Hup ].
Qed.

Lemma py_clamp (n : Z) : py_max_Z (py_min_Z n 255) 0 = clamp 0 255 n.
Proof.
  unfold py_max_Z, py_min_Z, clamp.
  destruct (255 <? n)%Z eqn:Hhi; [ apply Z.ltb_lt in Hhi | apply Z.ltb_ge in Hhi ].
  - simpl. lia.
  - destruct (n <? 0)%Z eqn:Hlo; [ apply Z.ltb_lt in Hlo | apply Z.ltb_ge in Hlo ]; lia.
Qed.

(** C7: [to_byte] sends each channel [v] of a colour to [round (v * 255)]
    clamped to [0, 255], where [round] yields an integer nearest to its
    argument, the even one of the two when it lies half way; the colour
    (1.5, -0.2, 0.5) becomes (255, 0, 128). *)
Theorem to_byte_round_clamp (c : Color.t) :
  Image.to_byte c
  = [ clamp 0 255 (py_round (Color.r c * 255));
      clamp 0 255 (py_round (Color.g c * 255));
      clamp 0 255 (py_round (Color.b c * 255)) ]
  /\ Forall (fun n => (0 <= n <= 255)%Z) (Image.to_byte c)
  /\ (forall v, Rabs (IZR (py_round v) - v) <= 1 / 2)
  /\ (forall n : Z,
        py_round (IZR n + 1 / 2) = if Z.even n then n else (n + 1)%Z)
  /\ Image.to_byte (Color.mk (15 / 10) (- (2 / 10)) (5 / 10))
     = [255; 0; 128]%Z.
Proof.
  assert (Heq : forall c', Image.to_byte c'
            = [ clamp 0 255 (py_round (Color.r c' * 255));
                clamp 0 255 (py_round (Color.g c' * 255));
                clamp 0 255 (py_round (Color.b c' * 255)) ]).
  { intros c'. unfold Image.to_byte, Color.rgb; simpl.
    now rewrite !py_clamp. }
  split; [ apply Heq | ]. split; [ | split; [ | split ] ].
  - rewrite Heq. repeat constructor; unfold clamp; lia.
  - apply py_round_nearest.
  - intros n. now apply py_round_tie.
  - rewrite Heq; simpl.
    rewrite (py_round_tie 382) by lra.
    rewrite (py_round_below (-51)) by lra.
    rewrite (py_round_tie 127) by lra.
    reflexivity.
Qed.

(** ** Colours and the background gradient *)

Lemma from_hex_white :
  Color.from_hex "#FFFFFF"
  = Ok (Color.mk (IZR 255 / 255) (IZR 255 / 255) (IZR 255 / 255)).
Proof. reflexivity. Qed.

Lemma from_hex_black :
  Color.from_hex "#000000"
  = Ok (Color.mk (IZR 0 / 255) (IZR 0 / 255) (IZR 0 / 255)).
Proof. reflexivity. Qed.

Lemma WHITE_channels : WHITE = Color.mk 1 1 1.
Proof. unfold WHITE. rewrite from_hex_white; simpl. f_equal; lra. Qed.

Lemma BLACK_channels : BLACK = Color.mk 0 0 0.
Proof. unfold BLACK. rewrite from_hex_black; simpl. f_equal; lra. Qed.

Lemma bg_color_grey (ray : Ray.t) :
  let k := Vector.y (Ray.direction ray) / Vector.norm (Ray.direction ray) in
  Ray.bg_color ray = Color.mk k k k.
Proof.
  unfold Ray.bg_color. rewrite WHITE_channels, BLACK_channels.
  unfold Color.add, Color.scale, Vector.normalize, Vector.truediv; simpl.
  f_equal; ring.
Qed.

(** C6 (as amended): for a ray whose direction is not the zero vector,
    [bg_color] is [t * WHITE + (1 - t) * BLACK] with [t] the y component of
    the direction divided by its norm, the direction so divided having norm
    1.  The direction (0, 1, 0) gives WHITE.  The direction (0, -1, 0) gives
    the colour (-1, -1, -1), which is not BLACK but converts to the bytes
    (0, 0, 0); BLACK is the colour of a direction with y = 0. *)
Theorem bg_color_gradient (ray : Ray.t) :
  Ray.direction ray <> Vector.mk 0 0 0 ->
  let t := Vector.y (Ray.direction ray) / Vector.norm (Ray.direction ray) in
  Vector.normalize (Ray.direction ray)
  = Vector.mk (Vector.x (Ray.direction ray) / Vector.norm (Ray.direction ray))
              t
              (Vector.z (Ray.direction ray) / Vector.norm (Ray.direction ray))
  /\ Vector.norm (Vector.normalize (Ray.direction ray)) = 1
  /\ Ray.bg_color ray
     = Color.add (Color.scale WHITE t) (Color.scale BLACK (1 - t))
  /\ (Ray.direction ray = Vector.mk 0 1 0 -> Ray.bg_color ray = WHITE)
  /\ (Ray.direction ray = Vector.mk 0 (-1) 0 ->
      Ray.bg_color ray = Color.mk (-1) (-1) (-1)
      /\ Image.to_byte (Ray.bg_color ray) = [0; 0; 0]%Z)
  /\ (Vector.y (Ray.direction ray) = 0 -> Ray.bg_color ray = BLACK).
Proof.
  intros Hdir t. split; [ reflexivity | ].
  split; [ | split; [ | split; [ | split ] ] ].
  - pose proof (norm_pos _ Hdir) as Hn.
    pose proof (norm_sqr (Ray.direction ray)) as Hs.
    unfold Vector.normalize, Vector.truediv, Vector.norm at 1; simpl.
    set (n := Vector.norm (Ray.direction ray)) in *.
    unfold Vector.squared_norm, Vector.dot in Hs.
    replace (Vector.x (Ray.direction ray) / n * (Vector.x (Ray.direction ray) / n)
             + Vector.y (Ray.direction ray) / n * (Vector.y (Ray.direction ray) / n)
             + Vector.z (Ray.direction ray) / n * (Vector.z (Ray.direction ray) / n))
      with ((Vector.x (Ray.direction ray) * Vector.x (Ray.direction ray)
             + Vector.y (Ray.direction ray) * Vector.y (Ray.direction ray)
             + Vector.z (Ray.direction ray) * Vector.z (Ray.direction ray))
            / (n * n)) by (field; lra).
    rewrite <- Hs. replace (n * n / (n * n)) with 1 by (field; lra).
    apply sqrt_1.
  - unfold Ray.bg_color, Vector.normalize, Vector.truediv; simpl. reflexivity.
  - intros Hup. rewrite bg_color_grey, WHITE_channels, Hup.
    unfold Vector.norm; simpl.
    replace (0 * 0 + 1 * 1 + 0 * 0) with 1 by ring. rewrite sqrt_1.
    f_equal; lra.
  - intros Hdown.
    assert (Hc : Ray.bg_color ray = Color.mk (-1) (-1) (-1)).
    { rewrite bg_color_grey, Hdown. unfold Vector.norm; simpl.
      replace (0 * 0 + -1 * -1 + 0 * 0) with 1 by ring. rewrite sqrt_1.
      f_equal; lra. }
    split; [ exact Hc | ]. rewrite Hc.
    unfold Image.to_byte, Color.rgb; simpl.
    rewrite (py_round_below (-255)) by lra. reflexivity.
  - intros Hy. rewrite bg_color_grey, BLACK_channels, Hy.
    f_equal; unfold Rdiv; ring.
Qed.

(** ** Scene.find_nearest *)

Section FindNearest.

Variable ray : Ray.t.

Lemma lookup_snoc {A} (l : list A) (a b : A) (j : nat) :
  (l ++ [a]) !! j = Some b ->
  l !! j = Some b \/ (j = length l /\ b = a).
Proof.
  intros H. apply lookup_app_Some in H as [H | [Hle H]]; [ now left | right ].
  destruct (j - length l)%nat as [ | m] eqn:Hm; simpl in H;
    [ | now destruct m ].
  injection H as <-. split; [ lia | reflexivity ].
Qed.

Lemma find_nearest_step_inv (seen : list Sphere.t)
    (st : option R * option Sphere.t) (o : Sphere.t) :
  nearest_so_far ray seen st ->
  exists st', Scene.find_nearest_step ray st o = Ok st'
              /\ nearest_so_far ray (seen ++ [o]) st'.
Proof.
  intros Hinv. unfold Scene.find_nearest_step.
  destruct (Sphere.intersect o ray) as [dist | ] eqn:Hhit.
  - destruct Hinv as [[-> Hnone] | (k & ob & t & -> & Hk & Hob & Hmin)]; simpl.
    + eexists; split; [ reflexivity | ]. right.
      exists (length seen), o, dist. repeat split; try assumption.
      * rewrite lookup_app_r by lia. now rewrite Nat.sub_diag.
      * apply lookup_snoc in H as [H | [-> ->]].
        -- apply list_elem_of_lookup_2, list_elem_of_In in H.
           rewrite (Hnone _ H) in H0. discriminate.
        -- rewrite Hhit in H0. injection H0 as <-. lra.
      * intros Hlt. apply lookup_snoc in H as [H | [-> ->]]; [ | lia ].
        apply list_elem_of_lookup_2, list_elem_of_In in H.
        rewrite (Hnone _ H) in H0. discriminate.
    + pose proof (lookup_lt_Some _ _ _ Hk) as Hklt.
      destruct (Rlt_dec dist t) as [Hlt | Hge].
      * eexists; split; [ reflexivity | ]. right.
        exists (length seen), o, dist. repeat split; try assumption.
        -- rewrite lookup_app_r by lia. now rewrite Nat.sub_diag.
        -- apply lookup_snoc in H as [H | [-> ->]].
           ++ destruct (Hmin _ _ _ H H0). lra.
           ++ rewrite Hhit in H0. injection H0 as <-. lra.
        -- intros Hj. apply lookup_snoc in H as [H | [-> ->]]; [ | lia ].
           destruct (Hmin _ _ _ H H0). lra.
      * eexists; split; [ reflexivity | ]. right.
        exists k, ob, t. repeat split; try assumption.
        -- now apply lookup_app_l_Some.
        -- apply lookup_snoc in H as [H | [-> ->]].
           ++ now destruct (Hmin _ _ _ H H0).
           ++ rewrite Hhit in H0. injection H0 as <-. lra.
        -- intros Hj. apply lookup_snoc in H as [H | [-> ->]]; [ | lia ].
           destruct (Hmin _ _ _ H H0) as [_ Hs]. now apply Hs.
  - exists st. split; [ reflexivity | ].
    destruct Hinv as [[-> Hnone] | (k & ob & t & -> & Hk & Hob & Hmin)].
    + left. split; [ reflexivity | ].
      intros o' Hin. apply in_app_or in Hin as [Hin | [<- | []]]; auto.
    + right. exists k, ob, t. repeat split; try assumption.
      * now apply lookup_app_l_Some.
      * apply lookup_snoc in H as [H | [-> ->]].
        -- now destruct (Hmin _ _ _ H H0).
        -- rewrite Hhit in H0. discriminate.
      * intros Hj. apply lookup_snoc in H as [H | [-> ->]].
        -- destruct (Hmin _ _ _ H H0) as [_ Hs]. now apply Hs.
        -- rewrite Hhit in H0. discriminate.
Qed.

Lemma find_nearest_loop_inv (rest seen : list Sphere.t)
    (st : option R * option Sphere.t) :
  nearest_so_far ray seen st ->
  exists st', for_in rest (Scene.find_nearest_step ray) st = Ok st'
              /\ nearest_so_far ray (seen ++ rest) st'.
Proof.
  revert seen st. induction rest as [ | o rest IH]; intros seen st Hinv.
  - exists st. rewrite app_nil_r. now split.
  - destruct (find_nearest_step_inv seen st o Hinv) as (st1 & Hstep & Hinv1).
    destruct (IH (seen ++ [o]) st1 Hinv1) as (st2 & Hloop & Hinv2).
    exists st2. split.
    + simpl. rewrite Hstep. exact Hloop.
    + now rewrite <- app_assoc in Hinv2.
Qed.

End FindNearest.

(** C4: [find_nearest] answers [(None, None)] when no object of the scene
    meets the ray; otherwise it answers an object of the scene whose
    intersection parameter [t] is least among the objects that meet the
    ray, together with the ray's point at [t], and every object earlier in
    the list is strictly farther, so that of several objects at the same
    least [t] the earliest one is returned. *)
Theorem find_nearest_first_minimum (sc : Scene.t) (ray : Ray.t) :
  (Scene.find_nearest sc ray = Ok (None, None)
   /\ forall o, In o (Scene.objects sc) -> Sphere.intersect o ray = None)
  \/ (exists (k : nat) (o : Sphere.t) (t : R),
        Scene.find_nearest sc ray = Ok (Some (Ray.point_at ray t), Some o)
        /\ Scene.objects sc !! k = Some o
        /\ Sphere.intersect o ray = Some t
        /\ forall (j : nat) (o' : Sphere.t) (t' : R),
             Scene.objects sc !! j = Some o' ->
             Sphere.intersect o' ray = Some t' ->
             t <= t' /\ ((j < k)%nat -> t < t')).
Proof.
  destruct (find_nearest_loop_inv ray (Scene.objects sc) [] (None, None))
    as (st & Hloop & Hinv).
  { left. split; [ reflexivity | intros o [] ]. }
  simpl in Hinv. unfold Scene.find_nearest. rewrite Hloop.
  destruct Hinv as [[-> Hnone] | (k & o & t & -> & Hk & Ho & Hmin)].
  - left. split; [ reflexivity | exact Hnone ].
  - right. exists k, o, t. repeat split; try assumption.
    + now destruct (Hmin _ _ _ H H0).
    + intros Hj. destruct (Hmin _ _ _ H H0) as [_ Hs]. now apply Hs.
Qed.

(** ** Scene.color_at *)

Lemma py_max_Rmax (a b : R) : py_max a b = Rmax a b.
Proof.
  unfold py_max, Rmax.
  destruct (Rlt_dec a b), (Rle_dec a b); try reflexivity; lra.
Qed.

Lemma fold_left_overwrite {A B} (f : A -> B) (ls : list A) (l : A)
    (init : option B) :
  fold_left (fun (_ : option B) a => Some (f a)) (ls ++ [l]) init
  = Some (f l).
Proof. now rewrite fold_left_app. Qed.

(** With at least one light, [color_at] answers what the last iteration of
    its loop assigned. *)
Lemma color_at_last_light (sc : Scene.t) (ray : Ray.t) (p : Point)
    (o : Sphere.t) (cam : Point) (ls : list Light.t) (l : Light.t) :
  Scene.camera sc = Some cam ->
  Scene.lights sc = ls ++ [l] ->
  Scene.color_at sc ray p o
  = Ok (Scene.light_color (Sphere.normal_at o p) (Sphere.material o)
          (Vector.sub cam p) p l).
Proof.
  intros Hcam Hls. unfold Scene.color_at. rewrite Hcam, Hls.
  now rewrite fold_left_overwrite.
Qed.

Lemma color_at_unbound (sc : Scene.t) (ray : Ray.t) (p : Point)
    (o : Sphere.t) :
  Scene.lights sc = [] ->
  Scene.color_at sc ray p o
  = Raise (match Scene.camera sc with
           | Some _ => UnboundLocalError
           | None => TypeError
           end).
Proof.
  intros Hls. unfold Scene.color_at. rewrite Hls.
  now destruct (Scene.camera sc).
Qed.

Lemma color_at_some_light (sc : Scene.t) (ray : Ray.t) (p : Point)
    (o : Sphere.t) (cam : Point) :
  Scene.camera sc = Some cam ->
  Scene.lights sc <> [] ->
  exists c, Scene.color_at sc ray p o = Ok c.
Proof.
  intros Hcam Hls.
  destruct (exists_last Hls) as (ls & l & Heq).
  eexists. now apply (color_at_last_light sc ray p o cam ls l).
Qed.

(** Vectors along the z axis. *)

Lemma norm_z_axis (c : R) : Vector.norm (Vector.mk 0 0 c) = Rabs c.
Proof.
  unfold Vector.norm; simpl.
  replace (0 * 0 + 0 * 0 + c * c) with (Rsqr c) by (unfold Rsqr; ring).
  apply sqrt_Rsqr_abs.
Qed.

Lemma normalize_neg_z (c : R) :
  c < 0 -> Vector.normalize (Vector.mk 0 0 c) = Vector.mk 0 0 (-1).
Proof.
  intros Hc. unfold Vector.normalize. rewrite norm_z_axis.
  rewrite Rabs_left by assumption.
  unfold Vector.truediv; simpl. f_equal; field; lra.
Qed.

(** The loop body of [color_at] for a light and a camera on the negative z
    axis and the hit point (0, 0, -1). *)
Lemma light_color_z_axis (m : Material.t) (lz cz : R) (lc : Color.t) :
  lz < -1 -> cz < -1 ->
  Scene.light_color (Vector.mk 0 0 (-1)) m
    (Vector.sub (Vector.mk 0 0 cz) demo_point) demo_point
    (Light.mk (Vector.mk 0 0 lz) lc)
  = Color.add
      (Color.scale (Color.scale (Material.color m) (Material.diffuse m))
                   (- 1 - lz))
      (Color.scale lc (Material.specular m)).
Proof.
  intros Hl Hc. unfold Scene.light_color, Ray.from_points, demo_point; simpl.
  unfold Vector.sub, Vector.add; simpl.
  replace (0 - 0 + (0 - 0)) with 0 by ring.
  rewrite normalize_neg_z by lra.
  unfold Vector.matmul, Vector.dot; simpl.
  rewrite !py_max_Rmax, !Rmax_right by lra.
  replace (0 * 0 + 0 * 0 + -1 * -1) with 1 by ring.
  rewrite pow1.
  unfold Color.add, Color.scale; simpl. f_equal; ring.
Qed.

Lemma demo_normal : Sphere.normal_at demo_sphere demo_point = Vector.mk 0 0 (-1).
Proof.
  unfold Sphere.normal_at, demo_sphere, demo_point, ORIGIN, Vector.sub; simpl.
  replace (0 - 0) with 0 by ring. replace (-1 - 0) with (-1) by ring.
  apply normalize_neg_z; lra.
Qed.

Lemma RED_channels : RED = Color.mk 1 0 0.
Proof.
  unfold RED.
  change (Color.from_hex "#FF0000")
    with (Ok (Color.mk (IZR 255 / 255) (IZR 0 / 255) (IZR 0 / 255))).
  simpl. f_equal; lra.
Qed.

Lemma demo_color_at_last (ls : list Light.t) (lz : R) (lc : Color.t) :
  lz < -1 ->
  Scene.color_at (demo_scene (ls ++ [Light.mk (Vector.mk 0 0 lz) lc]))
                 demo_ray demo_point demo_sphere
  = Ok (Color.add (Color.scale WHITE (- 1 - lz)) lc).
Proof.
  intros Hl.
  rewrite (color_at_last_light _ demo_ray demo_point demo_sphere demo_camera
             ls (Light.mk (Vector.mk 0 0 lz) lc)) by reflexivity.
  rewrite demo_normal. unfold demo_camera.
  rewrite light_color_z_axis by lra. simpl.
  rewrite WHITE_channels. unfold Color.add, Color.scale; simpl.
  destruct lc as [cr cg cb]; simpl. do 2 f_equal; ring.
Qed.

Lemma normalize_down (a b c : R) :
  a = 0 -> b = 0 -> c < 0 ->
  Vector.normalize (Vector.mk a b c) = Vector.mk 0 0 (-1).
Proof. intros -> -> Hc. now apply normalize_neg_z. Qed.

Lemma spec_light_color_z_axis (m : Material.t) (lz cz : R) (lc : Color.t) :
  lz < -1 -> cz < -1 ->
  spec_light_color (Vector.mk 0 0 (-1)) m (Vector.mk 0 0 cz) demo_point
    (Light.mk (Vector.mk 0 0 lz) lc)
  = Color.add
      (Color.scale (Color.scale (Material.color m) (Material.diffuse m)) 1)
      (Color.scale (Color.scale lc (Material.specular m)) 1).
Proof.
  intros Hl Hc.
  unfold spec_light_color, demo_point, Vector.sub; simpl.
  rewrite !(normalize_down (0 - 0) (0 - 0)) by lra.
  unfold Vector.add; simpl.
  rewrite (normalize_down (0 + 0) (0 + 0)) by lra.
  unfold Vector.dot; simpl.
  rewrite !Rmax_right by lra.
  replace (0 * 0 + 0 * 0 + -1 * -1) with 1 by ring.
  now rewrite pow1.
Qed.

Lemma demo_spec_light_color :
  spec_light_color (Sphere.normal_at demo_sphere demo_point)
    (Sphere.material demo_sphere) demo_camera demo_point white_light
  = Color.mk 2 2 2.
Proof.
  rewrite demo_normal. unfold white_light, demo_camera.
  rewrite spec_light_color_z_axis by lra.
  unfold demo_sphere, Material.default; cbn [Sphere.material Material.color Material.diffuse Material.specular].
  rewrite WHITE_channels.
  unfold Color.add, Color.scale; simpl. f_equal; ring.
Qed.

(** C1 (the code departs from it): with the two lights [white_light] and
    [red_light], whose contributions at the hit point are (3, 3, 3) and
    (2, 1, 1), [color_at] answers (2, 1, 1), the contribution of the last
    light alone, where the sum over the lights is (5, 4, 4). *)
Theorem color_at_two_lights :
  Scene.color_at (demo_scene [white_light; red_light])
                 demo_ray demo_point demo_sphere
  = Ok (Color.mk 2 1 1)
  /\ map (Scene.light_color (Sphere.normal_at demo_sphere demo_point)
            (Sphere.material demo_sphere)
            (Vector.sub demo_camera demo_point) demo_point)
         [white_light; red_light]
     = [Color.mk 3 3 3; Color.mk 2 1 1]
  /\ sum_colors [Color.mk 3 3 3; Color.mk 2 1 1] = Color.mk 5 4 4.
Proof.
  split; [ | split ].
  - pose proof (demo_color_at_last [white_light] (-2) RED) as Hlast.
    cbn [app] in Hlast. unfold red_light. rewrite Hlast by lra.
    rewrite WHITE_channels, RED_channels.
    unfold Color.add, Color.scale; simpl. do 2 f_equal; ring.
  - rewrite demo_normal. unfold white_light, red_light, demo_camera; simpl.
    rewrite !light_color_z_axis by lra. simpl.
    rewrite WHITE_channels, RED_channels.
    unfold Color.add, Color.scale; simpl.
    repeat f_equal; ring.
  - unfold sum_colors, Color.add; simpl. f_equal; ring.
Qed.

(** C2 (the code departs from it): for the single light [white_light], at
    distance 2 from the hit point, [color_at] answers (3, 3, 3): its diffuse
    factor is the dot product of the normal with the unnormalised direction
    to the light, which is 2.  The contribution with the directions
    normalised before use is (2, 2, 2). *)
Theorem color_at_unnormalised_light :
  Scene.color_at (demo_scene [white_light]) demo_ray demo_point demo_sphere
  = Ok (Color.mk 3 3 3)
  /\ spec_light_color (Sphere.normal_at demo_sphere demo_point)
       (Sphere.material demo_sphere) demo_camera demo_point white_light
     = Color.mk 2 2 2.
Proof.
  split; [ | apply demo_spec_light_color ].
  pose proof (demo_color_at_last [] (-3) WHITE) as Hlast.
  cbn [app] in Hlast. unfold white_light. rewrite Hlast by lra.
  rewrite WHITE_channels.
  unfold Color.add, Color.scale; simpl. do 2 f_equal; ring.
Qed.

(** ** Scene.trace *)

(** [find_nearest] never raises, and its two answers come together. *)
Lemma find_nearest_total (sc : Scene.t) (ray : Ray.t) :
  (Scene.find_nearest sc ray = Ok (None, None)
   /\ forall o, In o (Scene.objects sc) -> Sphere.intersect o ray = None)
  \/ exists (p : Point) (o : Sphere.t),
       Scene.find_nearest sc ray = Ok (Some p, Some o).
Proof.
  destruct (find_nearest_loop_inv ray (Scene.objects sc) [] (None, None))
    as (st & Hloop & Hinv).
  { left. split; [ reflexivity | intros o [] ]. }
  simpl in Hinv. unfold Scene.find_nearest. rewrite Hloop.
  destruct Hinv as [[-> Hnone] | (k & o & t & -> & _)].
  - left. now split.
  - right. now exists (Ray.point_at ray t), o.
Qed.

Lemma find_nearest_hit (sc : Scene.t) (ray : Ray.t) :
  (exists o, In o (Scene.objects sc) /\ Sphere.intersect o ray <> None) ->
  exists (p : Point) (o : Sphere.t),
    Scene.find_nearest sc ray = Ok (Some p, Some o).
Proof.
  intros (o & Hin & Hhit).
  destruct (find_nearest_total sc ray) as [[_ Hnone] | Hsome];
    [ | exact Hsome ].
  exfalso. apply Hhit. now apply Hnone.
Qed.

Lemma trace_total (sc : Scene.t) (ray : Ray.t) (cam : Point) :
  Scene.camera sc = Some cam ->
  Scene.lights sc <> [] ->
  exists c, Scene.trace sc ray = Ok c.
Proof.
  intros Hcam Hls. unfold Scene.trace.
  destruct (find_nearest_total sc ray) as [[-> _] | (p & o & ->)]; simpl.
  - now eexists.
  - now apply (color_at_some_light sc ray p o cam).
Qed.

Lemma demo_intersect : Sphere.intersect demo_sphere demo_ray = Some 4.
Proof.
  rewrite intersect_quadratic.
  assert (Hb : quad_b demo_sphere demo_ray = -10)
    by (unfold quad_b, Vector.dot, Vector.sub; simpl; ring).
  assert (Hd : discriminant demo_sphere demo_ray = 2 * 2).
  { unfold discriminant. rewrite Hb.
    unfold quad_a, quad_c, Vector.squared_norm, Vector.dot, Vector.sub; simpl.
    ring. }
  assert (Ht : near_root demo_sphere demo_ray = 4).
  { unfold near_root. rewrite Hd, Hb, sqrt_square by lra.
    unfold quad_a, Vector.squared_norm, Vector.dot; simpl. field. }
  rewrite Hd, Ht.
  destruct (Rle_dec 0 (2 * 2)); [ | lra ].
  destruct (Rle_dec 0 4); [ reflexivity | lra ].
Qed.

(** C10: when the scene has no light, [color_at] raises for every hit point
    and object, and [trace] raises for every ray that meets an object: the
    loop never assigns the colour that is returned.  The exception is
    [UnboundLocalError], or [TypeError] when no camera is set either. *)
Theorem no_light_no_color (sc : Scene.t) (ray : Ray.t) :
  Scene.lights sc = [] ->
  (exists o, In o (Scene.objects sc) /\ Sphere.intersect o ray <> None) ->
  let e := match Scene.camera sc with
           | Some _ => UnboundLocalError
           | None => TypeError
           end in
  (forall (r : Ray.t) (p : Point) (o : Sphere.t),
     Scene.color_at sc r p o = Raise e)
  /\ Scene.trace sc ray = Raise e.
Proof.
  intros Hls Hhit e. split.
  - intros r p o. now apply color_at_unbound.
  - destruct (find_nearest_hit sc ray Hhit) as (p & o & Hfound).
    unfold Scene.trace. rewrite Hfound; simpl.
    now apply color_at_unbound.
Qed.

Lemma no_light_no_color_witness :
  Scene.trace (demo_scene []) demo_ray = Raise UnboundLocalError.
Proof.
  apply (no_light_no_color (demo_scene []) demo_ray).
  - reflexivity.
  - exists demo_sphere. split; [ now left | ].
    rewrite demo_intersect. discriminate.
Defined.

(** ** Image.set_pixel *)

Lemma py_index_in_range (len : nat) (i : Z) :
  (- Z.of_nat len <= i < Z.of_nat len)%Z ->
  py_index len i = Ok (Z.to_nat (wrap (Z.of_nat len) i))
  /\ (Z.to_nat (wrap (Z.of_nat len) i) < len)%nat.
Proof.
  intros Hi. unfold py_index, wrap.
  destruct (0 <=? i)%Z eqn:H0;
    [ apply Z.leb_le in H0 | apply Z.leb_gt in H0 ]; simpl.
  - destruct (i <? Z.of_nat len)%Z eqn:H1;
      [ apply Z.ltb_lt in H1 | apply Z.ltb_ge in H1; lia ].
    split; [ reflexivity | lia ].
  - destruct (i <? 0)%Z eqn:H1;
      [ apply Z.ltb_lt in H1 | apply Z.ltb_ge in H1; lia ]; simpl.
    destruct (- Z.of_nat len <=? i)%Z eqn:H2;
      [ apply Z.leb_le in H2 | apply Z.leb_gt in H2; lia ].
    split; [ reflexivity | lia ].
Qed.

Lemma py_index_out_of_range (len : nat) (i : Z) :
  ~ (- Z.of_nat len <= i < Z.of_nat len)%Z ->
  py_index len i = Raise IndexError.
Proof.
  intros Hi. unfold py_index.
  destruct (0 <=? i)%Z eqn:H0;
    [ apply Z.leb_le in H0 | apply Z.leb_gt in H0 ]; simpl.
  - destruct (i <? Z.of_nat len)%Z eqn:H1;
      [ apply Z.ltb_lt in H1; lia | apply Z.ltb_ge in H1 ].
    destruct (i <? 0)%Z eqn:H2; [ apply Z.ltb_lt in H2; lia | reflexivity ].
  - destruct (i <? 0)%Z eqn:H1;
      [ apply Z.ltb_lt in H1 | apply Z.ltb_ge in H1; lia ]; simpl.
    destruct (- Z.of_nat len <=? i)%Z eqn:H2;
      [ apply Z.leb_le in H2; lia | reflexivity ].
Qed.

Lemma range_length (n : Z) : length (range n) = Z.to_nat n.
Proof. unfold range. now rewrite length_map, length_seq. Qed.

Lemma wf_image_init (w h : Z) : wf_image (Image.init w h).
Proof.
  split; simpl.
  - now rewrite length_map, range_length.
  - apply Forall_forall. intros row Hin.
    apply list_elem_of_In, in_map_iff in Hin as (j & <- & _).
    now rewrite length_map, range_length.
Qed.

(** What [set_pixel] does on a well-formed image, by the position of the
    indices. *)
Lemma set_pixel_cases (img : Image.t) (x y : Z) (c : Color.t) :
  wf_image img ->
  let w := Z.to_nat (Image.width img) in
  let h := Z.to_nat (Image.height img) in
  let ix := Z.to_nat (wrap (Z.of_nat w) x) in
  let iy := Z.to_nat (wrap (Z.of_nat h) y) in
  ((- Z.of_nat h <= y < Z.of_nat h)%Z /\ (- Z.of_nat w <= x < Z.of_nat w)%Z
   /\ (ix < w)%nat /\ (iy < h)%nat
   /\ exists row,
        Image.pixels img !! iy = Some row
        /\ Image.set_pixel img x y c
           = Ok (Image.mk (Image.width img) (Image.height img)
                   (<[iy := <[ix := Some c]> row]> (Image.pixels img))))
  \/ (~ ((- Z.of_nat h <= y < Z.of_nat h)%Z
         /\ (- Z.of_nat w <= x < Z.of_nat w)%Z)
      /\ Image.set_pixel img x y c = Raise IndexError).
Proof.
  intros [Hrows Hcols] w h ix iy.
  unfold Image.set_pixel, py_getitem, py_setitem. rewrite Hrows. fold h.
  destruct (Z_lt_le_dec y (- Z.of_nat h)) as [Hy1 | Hy1];
    [ | destruct (Z_lt_le_dec y (Z.of_nat h)) as [Hy2 | Hy2] ].
  - right. split; [ lia | ].
    now rewrite py_index_out_of_range by lia.
  - destruct (py_index_in_range h y) as [Hiy Hlt]; [ lia | ].
    fold iy in Hiy, Hlt. rewrite Hiy. simpl.
    destruct (lookup_lt_is_Some_2 (Image.pixels img) iy) as [row Hrow];
      [ rewrite Hrows; exact Hlt | ].
    rewrite Hrow. simpl.
    assert (Hlen : length row = w).
    { rewrite Forall_forall in Hcols. apply Hcols.
      now apply list_elem_of_lookup_2 in Hrow. }
    rewrite Hlen.
    destruct (Z_lt_le_dec x (- Z.of_nat w)) as [Hx1 | Hx1];
      [ | destruct (Z_lt_le_dec x (Z.of_nat w)) as [Hx2 | Hx2] ].
    + right. split; [ lia | ].
      now rewrite py_index_out_of_range by lia.
    + left. destruct (py_index_in_range w x) as [Hix Hxlt]; [ lia | ].
      fold ix in Hix, Hxlt. rewrite Hix. simpl.
      repeat split; try lia. exists row. split; reflexivity.
    + right. split; [ lia | ].
      now rewrite py_index_out_of_range by lia.
  - right. split; [ lia | ].
    now rewrite py_index_out_of_range by lia.
Qed.

(** A write that succeeds changes the addressed cell and nothing else. *)
Lemma set_pixel_write (img img' : Image.t) (x y : Z) (c : Color.t) :
  wf_image img ->
  Image.set_pixel img x y c = Ok img' ->
  let ix := Z.to_nat (wrap (Z.of_nat (Z.to_nat (Image.width img))) x) in
  let iy := Z.to_nat (wrap (Z.of_nat (Z.to_nat (Image.height img))) y) in
  wf_image img'
  /\ Image.width img' = Image.width img
  /\ Image.height img' = Image.height img
  /\ cell img' ix iy = Some (Some c)
  /\ forall i j : nat, ~ (i = ix /\ j = iy) -> cell img' i j = cell img i j.
Proof.
  intros Hwf Hset ix iy.
  destruct (set_pixel_cases img x y c Hwf)
    as [(_ & _ & Hix & Hiy & row & Hrow & Heq) | [_ Heq]];
    rewrite Heq in Hset; [ | discriminate ].
  fold ix in Hix, Heq. fold iy in Hiy, Hrow, Heq.
  injection Hset as <-. destruct Hwf as [Hrows Hcols].
  assert (Hlen : length row = Z.to_nat (Image.width img)).
  { rewrite Forall_forall in Hcols. apply Hcols.
    now apply list_elem_of_lookup_2 in Hrow. }
  split; [ | split; [ reflexivity | split; [ reflexivity | split ] ] ].
  - split; simpl.
    + now rewrite length_insert.
    + apply Forall_insert; [ exact Hcols | ]. now rewrite length_insert.
  - unfold cell; cbn [Image.pixels].
    rewrite list_lookup_insert_eq by (rewrite Hrows; exact Hiy).
    apply list_lookup_insert_eq. rewrite Hlen. exact Hix.
  - intros i j Hij. unfold cell; cbn [Image.pixels].
    destruct (Nat.eq_dec j iy) as [Ej | Hj].
    + rewrite Ej.
      rewrite list_lookup_insert_eq by (rewrite Hrows; exact Hiy).
      rewrite Hrow. apply list_lookup_insert_ne.
      intros Ei. apply Hij. split; [ now symmetry | exact Ej ].
    + apply (f_equal (fun r => match r with
                               | Some row0 => row0 !! i
                               | None => None
                               end)).
      apply list_lookup_insert_ne. intros Ej. apply Hj. now symmetry.
Qed.

(** C8 (as amended): on a well-formed image, [set_pixel x y] raises exactly
    when [x] is outside [-width <= x < width] or [y] is outside
    [-height <= y < height], and then the exception is [IndexError]; an
    index that is negative but within that range is not a fault: the write
    succeeds and changes the single cell counted from the end of the row
    or column, leaving every other cell as it was. *)
Theorem set_pixel_index_error (img : Image.t) (x y : Z) (c : Color.t) :
  wf_image img ->
  (0 <= Image.width img)%Z ->
  (0 <= Image.height img)%Z ->
  (Image.set_pixel img x y c = Raise IndexError <->
   (x < - Image.width img \/ Image.width img <= x
    \/ y < - Image.height img \/ Image.height img <= y)%Z)
  /\ (forall e, Image.set_pixel img x y c = Raise e -> e = IndexError)
  /\ (forall img', Image.set_pixel img x y c = Ok img' ->
      wf_image img'
      /\ Image.width img' = Image.width img
      /\ Image.height img' = Image.height img
      /\ cell img' (Z.to_nat (wrap (Image.width img) x))
                   (Z.to_nat (wrap (Image.height img) y)) = Some (Some c)
      /\ forall i j : nat,
           ~ (i = Z.to_nat (wrap (Image.width img) x)
              /\ j = Z.to_nat (wrap (Image.height img) y)) ->
           cell img' i j = cell img i j).
Proof.
  intros Hwf Hw Hh.
  pose proof (Z2Nat.id _ Hw) as Ew. pose proof (Z2Nat.id _ Hh) as Eh.
  split; [ | split ].
  - destruct (set_pixel_cases img x y c Hwf)
      as [(Hy & Hx & _ & _ & row & _ & Heq) | [Hout Heq]]; rewrite Heq.
    + split; [ discriminate | lia ].
    + split; [ intros _; lia | reflexivity ].
  - intros e He.
    destruct (set_pixel_cases img x y c Hwf)
      as [(_ & _ & _ & _ & row & _ & Heq) | [_ Heq]];
      rewrite Heq in He; [ discriminate | now injection He ].
  - intros img' Hset.
    pose proof (set_pixel_write img img' x y c Hwf Hset) as Hwrite.
    now rewrite Ew, Eh in Hwrite.
Qed.

Lemma set_pixel_index_error_witness :
  Image.set_pixel (Image.init 2 2) 2 0 WHITE = Raise IndexError <->
  (2 < - Image.width (Image.init 2 2)
   \/ Image.width (Image.init 2 2) <= 2
   \/ 0 < - Image.height (Image.init 2 2)
   \/ Image.height (Image.init 2 2) <= 0)%Z.
Proof.
  apply (set_pixel_index_error (Image.init 2 2) 2 0 WHITE).
  - apply wf_image_init.
  - simpl; lia.
  - simpl; lia.
Defined.

(** C8, as first stated, fails: the column index -1 lies outside
    [0 <= x < 2], yet the write does not raise and fills the last cell of
    the row. *)
Lemma set_pixel_negative_index :
  ~ (0 <= -1 < Image.width (Image.init 2 2))%Z
  /\ Image.set_pixel (Image.init 2 2) (-1) 0 WHITE
     = Ok (Image.mk 2 2 [[None; Some WHITE]; [None; None]]).
Proof. split; [ simpl; lia | reflexivity ]. Qed.

(** ** Scene.render *)

Lemma for_in_invariant {A S : Type} (P : list A -> S -> Prop)
    (body : S -> A -> result S) (rest : list A) :
  forall (seen : list A) (s : S),
    P seen s ->
    (forall done a s1,
       P done s1 -> In a rest ->
       exists s2, body s1 a = Ok s2 /\ P (done ++ [a]) s2) ->
    exists s', for_in rest body s = Ok s' /\ P (seen ++ rest) s'.
Proof.
  induction rest as [ | a rest IH]; intros seen s Hs Hbody.
  - exists s. rewrite app_nil_r. now split.
  - destruct (Hbody seen a s Hs) as (s1 & Hstep & Hs1); [ now left | ].
    destruct (IH (seen ++ [a]) s1 Hs1) as (s2 & Hloop & Hs2).
    { intros done b s3 Hs3 Hin. apply Hbody; [ exact Hs3 | now right ]. }
    exists s2. split.
    + simpl. rewrite Hstep. exact Hloop.
    + now rewrite <- app_assoc in Hs2.
Qed.

Lemma in_range (n i : Z) : In i (range n) <-> (0 <= i < n)%Z.
Proof.
  unfold range. rewrite in_map_iff. split.
  - intros (k & <- & Hk). apply in_seq in Hk. lia.
  - intros Hi. exists (Z.to_nat i). split; [ lia | ]. apply in_seq. lia.
Qed.

Lemma NoDup_range (n : Z) : List.NoDup (range n).
Proof.
  unfold range. apply Finite.Injective_map_NoDup.
  - intros a b. lia.
  - apply seq_NoDup.
Qed.

Lemma in_pixel_order (width height x y : Z) :
  In (x, y) (pixel_order width height) <->
  (0 <= x < width)%Z /\ (0 <= y < height)%Z.
Proof.
  unfold pixel_order. rewrite in_flat_map. split.
  - intros (j & Hj & Hin). apply in_map_iff in Hin as (i & [= <- <-] & Hi).
    now rewrite in_range in Hi, Hj.
  - intros [Hx Hy]. exists y. rewrite in_range. split; [ exact Hy | ].
    apply in_map_iff. exists x. now rewrite in_range.
Qed.

Lemma NoDup_pixel_order (width height : Z) :
  List.NoDup (pixel_order width height).
Proof.
  unfold pixel_order.
  generalize (NoDup_range height). generalize (range height) as rows.
  induction rows as [ | j rows IH]; intros Hnd; simpl; [ constructor | ].
  inversion Hnd as [ | ? ? Hnotin Hnd' ]; subst.
  apply List.NoDup_app. repeat split.
  - apply Finite.Injective_map_NoDup; [ | apply NoDup_range ].
    intros a b [= ->]. reflexivity.
  - now apply IH.
  - intros [x y] Hin1 Hin2.
    apply in_map_iff in Hin1 as (i & [= <- <-] & _).
    apply in_flat_map in Hin2 as (j' & Hj' & Hin2).
    apply in_map_iff in Hin2 as (i' & [= _ ->] & _). contradiction.
Qed.

Lemma bind_ok {A B : Type} (a : A) (f : A -> result B) : Ok a ≫= f = f a.
Proof. reflexivity. Qed.

Lemma py_div_by_zero (a b : R) : b = 0 -> py_div a b = Raise ZeroDivisionError.
Proof.
  intros Hb. unfold py_div. now destruct (Req_dec_T b 0).
Qed.

Lemma py_div_ok (a b : R) : b <> 0 -> py_div a b = Ok (a / b).
Proof.
  intros Hb. unfold py_div. now destruct (Req_dec_T b 0).
Qed.

Section Render.

Variables (sc : Scene.t) (cam : Point) (width height : Z).

Hypothesis camera_set : Scene.camera sc = Some cam.
Hypothesis some_light : Scene.lights sc <> [].

Lemma render_pixel_step (x0 x_step y : R) (i j : Z)
    (st : Scene.render_state) :
  (0 <= i < width)%Z -> (0 <= j < height)%Z ->
  render_inv width height st ->
  exists st',
    Scene.render_pixel sc x0 x_step y j st i = Ok st'
    /\ render_inv width height st'
    /\ snd st' = (i, j) :: snd st.
Proof using camera_set some_light.
  intros Hi Hj (Hwf & Hw & Hh & Hlog).
  unfold Scene.render_pixel. rewrite camera_set.
  destruct (trace_total sc
              (Ray.from_points cam (Vector.mk (x0 + IZR i * x_step) y 0))
              cam camera_set some_light) as [c ->].
  simpl.
  assert (Hset : exists img', Image.set_pixel (fst st) i j c = Ok img').
  { destruct (set_pixel_cases (fst st) i j c Hwf)
      as [(_ & _ & _ & _ & row & _ & Heq) | [Hout _]];
      [ eexists; exact Heq | exfalso; apply Hout; rewrite Hw, Hh; lia ]. }
  destruct Hset as [img' Heq].
  destruct (set_pixel_write _ _ i j c Hwf Heq)
    as (Hwf' & Hw' & Hh' & Hcell & Hother).
  rewrite Hw, Hh, !Z2Nat.id in Hcell, Hother by lia.
  unfold wrap in Hcell, Hother.
  destruct (Z.leb_spec 0 i) as [_ | Hneg]; [ | lia ].
  destruct (Z.leb_spec 0 j) as [_ | Hneg]; [ | lia ].
  rewrite Heq. simpl. eexists. split; [ reflexivity | ].
  split; [ | reflexivity ].
  split; [ exact Hwf' | split; [ simpl; congruence | split; [ simpl; congruence | ] ] ].
  simpl. intros px py [[= <- <-] | Hin].
  - now exists c.
  - destruct (Nat.eq_dec (Z.to_nat px) (Z.to_nat i)) as [Ex | Ex];
      [ destruct (Nat.eq_dec (Z.to_nat py) (Z.to_nat j)) as [Ey | Ey] | ].
    + exists c. now rewrite Ex, Ey.
    + rewrite Hother by (intros [_ E]; now apply Ey). now apply Hlog.
    + rewrite Hother by (intros [E _]; now apply Ex). now apply Hlog.
Qed.

Lemma render_row_step (x0 x_step y0 y_step : R) (j : Z)
    (st : Scene.render_state) :
  (0 <= j < height)%Z ->
  render_inv width height st ->
  exists st',
    Scene.render_row sc width x0 x_step y0 y_step st j = Ok st'
    /\ render_inv width height st'
    /\ snd st' = rev (map (fun i => (i, j)) (range width)) ++ snd st.
Proof using camera_set some_light.
  intros Hj Hinv. unfold Scene.render_row.
  destruct (for_in_invariant
              (fun done s => render_inv width height s
                             /\ snd s = rev (map (fun i => (i, j)) done)
                                        ++ snd st)
              (Scene.render_pixel sc x0 x_step (y0 + IZR j * y_step) j)
              (range width) [] st) as (st' & Hloop & Hinv' & Hlog).
  - now split.
  - intros done i s1 [Hinv1 Hlog1] Hin. apply in_range in Hin.
    destruct (render_pixel_step x0 x_step (y0 + IZR j * y_step) i j s1
                Hin Hj Hinv1) as (s2 & Hstep & Hinv2 & Hlog2).
    exists s2. split; [ exact Hstep | ]. split; [ exact Hinv2 | ].
    rewrite Hlog2, Hlog1, map_app, rev_app_distr. reflexivity.
  - exists st'. split; [ exact Hloop | ]. split; [ exact Hinv' | exact Hlog ].
Qed.

Lemma render_loop (x0 x_step y0 y_step : R) :
  exists st',
    for_in (range height)
           (Scene.render_row sc width x0 x_step y0 y_step)
           (Image.init width height, []) = Ok st'
    /\ render_inv width height st'
    /\ rev (snd st') = pixel_order width height.
Proof using camera_set some_light.
  destruct (for_in_invariant
              (fun done s =>
                 render_inv width height s
                 /\ snd s = rev (flat_map
                                   (fun j => map (fun i => (i, j))
                                                 (range width)) done))
              (Scene.render_row sc width x0 x_step y0 y_step)
              (range height) [] (Image.init width height, []))
    as (st' & Hloop & Hinv' & Hlog).
  - split; [ | reflexivity ].
    split; [ apply wf_image_init | ]. repeat split. intros x y [].
  - intros done j s1 [Hinv1 Hlog1] Hin. apply in_range in Hin.
    destruct (render_row_step x0 x_step y0 y_step j s1 Hin Hinv1)
      as (s2 & Hstep & Hinv2 & Hlog2).
    exists s2. split; [ exact Hstep | ]. split; [ exact Hinv2 | ].
    rewrite Hlog2, Hlog1, flat_map_app, rev_app_distr. simpl.
    now rewrite app_nil_r.
  - exists st'. split; [ exact Hloop | ]. split; [ exact Hinv' | ].
    simpl in Hlog. rewrite Hlog. apply rev_involutive.
Qed.

End Render.

(** C5 (as amended): for a scene with a camera and at least one light, and
    for every width > 1 and height > 1, [render] returns an image of that
    width and height; [set_pixel] was called once for every coordinate
    [(i, j)] with [0 <= i < width] and [0 <= j < height], row by row, and
    for no other; and every cell of the image holds a colour. *)
Theorem render_fills_image (sc : Scene.t) (cam : Point) (width height : Z) :
  Scene.camera sc = Some cam ->
  Scene.lights sc <> [] ->
  (1 < width)%Z ->
  (1 < height)%Z ->
  exists (img : Image.t) (log : list (Z * Z)),
    Scene.render_run sc width height = Ok (img, log)
    /\ Scene.render sc width height = Ok img
    /\ wf_image img
    /\ Image.width img = width
    /\ Image.height img = height
    /\ rev log = pixel_order width height
    /\ List.NoDup log
    /\ (forall x y : Z,
          In (x, y) log <-> (0 <= x < width)%Z /\ (0 <= y < height)%Z)
    /\ (forall i j : nat,
          (Z.of_nat i < width)%Z -> (Z.of_nat j < height)%Z ->
          exists c, cell img i j = Some (Some c)).
Proof.
  intros Hcam Hls Hw Hh.
  assert (Hh0 : IZR height <> 0) by (apply not_0_IZR; lia).
  assert (Hw1 : IZR (width - 1) <> 0) by (apply not_0_IZR; lia).
  assert (Hh1 : IZR (height - 1) <> 0) by (apply not_0_IZR; lia).
  assert (Hratio : IZR width / IZR height <> 0).
  { assert (0 < IZR width) by (apply (IZR_lt 0); lia).
    assert (0 < IZR height) by (apply (IZR_lt 0); lia).
    apply Rgt_not_eq. now apply Rdiv_lt_0_compat. }
  unfold Scene.render, Scene.render_run.
  rewrite (py_div_ok _ _ Hh0); simpl.
  rewrite (py_div_ok _ _ Hw1); simpl.
  rewrite !(py_div_ok _ _ Hratio); simpl.
  rewrite (py_div_ok _ _ Hh1); simpl.
  destruct (render_loop sc cam width height Hcam Hls (-1)
              ((1 - -1) / IZR (width - 1))
              (-1 / (IZR width / IZR height))
              ((1 / (IZR width / IZR height)
                - -1 / (IZR width / IZR height)) / IZR (height - 1)))
    as ([img log] & Hloop & (Hwf & Hwd & Hht & Hcells) & Horder).
  simpl in Hwf, Hwd, Hht, Hcells, Horder.
  assert (Hin : forall x y : Z,
            In (x, y) log <-> (0 <= x < width)%Z /\ (0 <= y < height)%Z).
  { intros x y. rewrite <- in_pixel_order, <- Horder. apply in_rev. }
  exists img, log. rewrite Hloop. simpl.
  split; [ reflexivity | ]. split; [ reflexivity | ].
  split; [ exact Hwf | ]. split; [ exact Hwd | ]. split; [ exact Hht | ].
  split; [ exact Horder | ]. split; [ | split; [ exact Hin | ] ].
  - rewrite (Permutation_rev log), Horder. apply NoDup_pixel_order.
  - intros i j Hi Hj.
    destruct (Hcells (Z.of_nat i) (Z.of_nat j)) as [c Hc];
      [ apply Hin; lia | ].
    exists c. now rewrite !Nat2Z.id in Hc.
Qed.

Lemma render_fills_image_witness :
  exists img, Scene.render (demo_scene [white_light]) 2 2 = Ok img.
Proof.
  destruct (render_fills_image (demo_scene [white_light]) demo_camera 2 2)
    as (img & log & _ & Hrender & _).
  - reflexivity.
  - discriminate.
  - lia.
  - lia.
  - exists img. exact Hrender.
Defined.

(** C5, as first stated, fails: width 1 and height 1 are positive, yet
    [render] raises when it divides by [width - 1]. *)
Lemma render_one_by_one_raises :
  (0 < 1)%Z
  /\ Scene.render (demo_scene [white_light]) 1 1 = Raise ZeroDivisionError.
Proof.
  split; [ lia | ].
  unfold Scene.render, Scene.render_run.
  rewrite (py_div_ok (IZR 1) (IZR 1)) by lra. rewrite bind_ok.
  rewrite (py_div_by_zero (1 - -1) (IZR (1 - 1))) by reflexivity.
  reflexivity.
Qed.

(** ** The properties at the small scene *)

Lemma demo_distance : Vector.norm (Vector.sub ORIGIN demo_camera) = 5.
Proof.
  unfold Vector.norm, Vector.sub, ORIGIN, demo_camera; simpl.
  replace ((0 - 0) * (0 - 0) + (0 - 0) * (0 - 0) + (0 - -5) * (0 - -5))
    with (5 * 5) by ring.
  apply sqrt_square; lra.
Qed.

Lemma intersect_near_root_or_none_witness :
  Sphere.intersect demo_sphere demo_ray = None <->
  discriminant demo_sphere demo_ray < 0 \/ near_root demo_sphere demo_ray < 0.
Proof.
  apply (intersect_near_root_or_none demo_sphere demo_ray).
  simpl. intros [= H]. lra.
Defined.

Lemma intersect_toward_center_witness :
  Sphere.intersect demo_sphere
    (Ray.mk demo_camera (Vector.normalize (Vector.sub ORIGIN demo_camera)))
  = Some (Vector.norm (Vector.sub ORIGIN demo_camera) - 1).
Proof.
  apply (intersect_toward_center demo_sphere demo_camera).
  - simpl. lra.
  - simpl. rewrite demo_distance. lra.
Defined.

Lemma bg_color_gradient_witness :
  Ray.bg_color (Ray.mk ORIGIN (Vector.mk 0 1 0)) = WHITE.
Proof.
  destruct (bg_color_gradient (Ray.mk ORIGIN (Vector.mk 0 1 0)))
    as (_ & _ & _ & Hup & _).
  - simpl. intros [= H]. lra.
  - apply Hup. reflexivity.
Defined.

(** C6, as first stated, fails: the direction (0, -1, 0) does not give
    BLACK. *)
Lemma bg_color_down_not_black :
  Ray.bg_color (Ray.mk ORIGIN (Vector.mk 0 (-1) 0)) <> BLACK.
Proof.
  rewrite bg_color_grey, BLACK_channels.
  unfold Vector.norm; simpl.
  replace (0 * 0 + -1 * -1 + 0 * 0) with 1 by ring. rewrite sqrt_1.
  intros [= H]. lra.
Qed.

(** * Further properties of the code *)

(** ** Vector algebra *)

Ltac vector_ring :=
  repeat match goal with
         | v : Vector.t |- _ => destruct v
         | p : Point |- _ => destruct p
         end;
  unfold Vector.add, Vector.sub, Vector.mul, Vector.scale, Vector.cross,
    Vector.matmul, Vector.squared_norm, Vector.dot; simpl;
  try first [ ring | f_equal; ring ].

(** X1: addition and subtraction of vectors cancel, multiplication by a
    number distributes over addition and composes, and the dot product is
    symmetric and linear. *)
Theorem vector_laws (v w u : Vector.t) (s k : R) :
  Vector.sub (Vector.add v w) w = v
  /\ Vector.add (Vector.sub v w) w = v
  /\ Vector.add v w = Vector.add w v
  /\ Vector.add (Vector.add v w) u = Vector.add v (Vector.add w u)
  /\ Vector.scale s (Vector.add v w)
     = Vector.add (Vector.scale s v) (Vector.scale s w)
  /\ Vector.scale s (Vector.scale k v) = Vector.scale (s * k) v
  /\ Vector.dot v w = Vector.dot w v
  /\ Vector.dot (Vector.add v w) u = Vector.dot v u + Vector.dot w u
  /\ Vector.dot (Vector.scale s v) w = s * Vector.dot v w.
Proof. repeat split; vector_ring. Qed.

Lemma lagrange_identity (v w : Vector.t) :
  Vector.squared_norm (Vector.cross v w)
  = Vector.squared_norm v * Vector.squared_norm w
    - Vector.dot v w * Vector.dot v w.
Proof. vector_ring. Qed.

(** X2: the cross product of a vector with itself is the zero vector, it
    changes sign when its operands are swapped, it is orthogonal to both
    operands, and its squared norm is [|v|^2 |w|^2 - (v . w)^2]. *)
Theorem cross_laws (v w : Vector.t) :
  Vector.cross v v = Vector.mk 0 0 0
  /\ Vector.cross v w = Vector.scale (-1) (Vector.cross w v)
  /\ Vector.dot (Vector.cross v w) v = 0
  /\ Vector.dot (Vector.cross v w) w = 0
  /\ Vector.squared_norm (Vector.cross v w)
     = Vector.squared_norm v * Vector.squared_norm w
       - Vector.dot v w * Vector.dot v w.
Proof.
  split; [ | split; [ | split; [ | split ] ] ];
    try apply lagrange_identity; vector_ring.
Qed.

Lemma norm_scale (k : R) (v : Vector.t) :
  Vector.norm (Vector.scale k v) = Rabs k * Vector.norm v.
Proof.
  unfold Vector.norm, Vector.scale; simpl.
  replace (Vector.x v * k * (Vector.x v * k) + Vector.y v * k * (Vector.y v * k)
           + Vector.z v * k * (Vector.z v * k))
    with (Rsqr k * (Vector.x v * Vector.x v + Vector.y v * Vector.y v
                    + Vector.z v * Vector.z v)) by (unfold Rsqr; ring).
  rewrite sqrt_mult_alt by apply Rle_0_sqr.
  now rewrite sqrt_Rsqr_abs.
Qed.

Lemma truediv_scale (v : Vector.t) (k : R) :
  Vector.truediv v k = Vector.scale (/ k) v.
Proof. reflexivity. Qed.

Lemma norm_normalize (v : Vector.t) :
  v <> Vector.mk 0 0 0 -> Vector.norm (Vector.normalize v) = 1.
Proof.
  intros Hv. pose proof (norm_pos v Hv) as Hn.
  unfold Vector.normalize. rewrite truediv_scale, norm_scale.
  rewrite Rabs_right by (left; now apply Rinv_0_lt_compat).
  field. lra.
Qed.

Lemma normalize_nonzero (v : Vector.t) :
  v <> Vector.mk 0 0 0 -> Vector.normalize v <> Vector.mk 0 0 0.
Proof.
  intros Hv Hz. pose proof (norm_normalize v Hv) as Hn. rewrite Hz in Hn.
  unfold Vector.norm in Hn; simpl in Hn.
  replace (0 * 0 + 0 * 0 + 0 * 0) with 0 in Hn by ring.
  rewrite sqrt_0 in Hn. lra.
Qed.

(** X3: a vector that is not the zero vector is normalised to a vector of
    norm 1 that points the same way; normalising again changes nothing,
    and neither does stretching the vector by a positive factor first. *)
Theorem normalize_unit (v : Vector.t) (k : R) :
  v <> Vector.mk 0 0 0 ->
  0 < k ->
  Vector.norm (Vector.normalize v) = 1
  /\ Vector.scale (Vector.norm v) (Vector.normalize v) = v
  /\ Vector.normalize (Vector.normalize v) = Vector.normalize v
  /\ Vector.normalize (Vector.scale k v) = Vector.normalize v.
Proof.
  intros Hv Hk. pose proof (norm_pos v Hv) as Hn.
  split; [ now apply norm_normalize | ]. split; [ | split ].
  - unfold Vector.normalize, Vector.truediv, Vector.scale; simpl.
    destruct v as [a b c]; simpl. f_equal; field; lra.
  - unfold Vector.normalize at 1. rewrite norm_normalize by assumption.
    unfold Vector.truediv. destruct (Vector.normalize v) as [a b c]; simpl.
    f_equal; field.
  - unfold Vector.normalize. rewrite norm_scale, Rabs_right by lra.
    unfold Vector.truediv, Vector.scale; simpl. f_equal; field; lra.
Qed.

Lemma normalize_unit_witness :
  Vector.norm (Vector.normalize (Vector.mk 0 0 (-5))) = 1.
Proof.
  apply (normalize_unit (Vector.mk 0 0 (-5)) 1).
  - intros [= H]. lra.
  - lra.
Defined.

Lemma dot_sqr_le (v w : Vector.t) :
  Vector.dot v w * Vector.dot v w
  <= Vector.squared_norm v * Vector.squared_norm w.
Proof.
  pose proof (lagrange_identity v w) as Hl.
  pose proof (squared_norm_nonneg (Vector.cross v w)) as Hc. lra.
Qed.

Lemma dot_abs_le (v w : Vector.t) :
  Rabs (Vector.dot v w) <= Vector.norm v * Vector.norm w.
Proof.
  pose proof (dot_sqr_le v w) as Hd.
  rewrite <- !norm_sqr in Hd.
  pose proof (norm_nonneg v) as Hv. pose proof (norm_nonneg w) as Hw.
  set (y := Vector.norm v * Vector.norm w).
  assert (Hy : 0 <= y) by (unfold y; nra).
  assert (Hsq : Vector.dot v w * Vector.dot v w <= y * y)
    by (unfold y; nra).
  apply Rabs_le. split; nra.
Qed.

Lemma dot_unit_le (v w : Vector.t) :
  Vector.norm v = 1 -> Vector.norm w = 1 -> Vector.dot v w <= 1.
Proof.
  intros Hv Hw. pose proof (dot_abs_le v w) as Hcs. rewrite Hv, Hw in Hcs.
  unfold Rabs in Hcs. destruct (Rcase_abs (Vector.dot v w)); lra.
Qed.

(** X4: the dot product of two vectors is at most the product of their
    norms in absolute value (Cauchy-Schwarz), and the norm of a sum is at
    most the sum of the norms. *)
Theorem dot_le_norms (v w : Vector.t) :
  Rabs (Vector.dot v w) <= Vector.norm v * Vector.norm w
  /\ Vector.norm (Vector.add v w) <= Vector.norm v + Vector.norm w.
Proof.
  split; [ apply dot_abs_le | ].
  pose proof (dot_abs_le v w) as Hcs.
  pose proof (norm_nonneg v) as Hv. pose proof (norm_nonneg w) as Hw.
  pose proof (norm_nonneg (Vector.add v w)) as Hs.
  pose proof (norm_sqr v) as Ev. pose proof (norm_sqr w) as Ew.
  pose proof (norm_sqr (Vector.add v w)) as Es.
  assert (Hexp : Vector.squared_norm (Vector.add v w)
                 = Vector.squared_norm v + 2 * Vector.dot v w
                   + Vector.squared_norm w) by vector_ring.
  assert (Hd : Vector.dot v w <= Vector.norm v * Vector.norm w).
  { unfold Rabs in Hcs. destruct (Rcase_abs (Vector.dot v w)); lra. }
  nra.
Qed.

(** ** Rays *)

(** X5: the ray built by [from_points] starts at its tail ([point_at 0]) and
    reaches its head at parameter 1; along any ray, the point at parameter
    [t] lies at distance [|t|] times the norm of the direction from the
    origin. *)
Theorem from_points_point_at (tail head : Point) (ray : Ray.t) (t : R) :
  Ray.point_at (Ray.from_points tail head) 0 = tail
  /\ Ray.point_at (Ray.from_points tail head) 1 = head
  /\ Vector.norm (Vector.sub (Ray.point_at ray t) (Ray.origin ray))
     = Rabs t * Vector.norm (Ray.direction ray).
Proof.
  split; [ | split ].
  - unfold Ray.point_at, Ray.from_points; simpl. vector_ring.
  - unfold Ray.point_at, Ray.from_points; simpl. vector_ring.
  - rewrite <- norm_scale. f_equal.
    unfold Ray.point_at. destruct ray as [o d]; simpl. vector_ring.
Qed.

(** ** Sphere.intersect and Sphere.normal_at *)

Lemma quad_a_pos (ray : Ray.t) :
  Ray.direction ray <> Vector.mk 0 0 0 -> 0 < quad_a ray.
Proof. intros Hdir. now apply squared_norm_pos. Qed.

(** The squared distance from the centre of the sphere to the point of the
    ray at parameter [t] is the quadratic plus the squared radius. *)
Lemma point_at_squared_distance (s : Sphere.t) (ray : Ray.t) (t : R) :
  Vector.squared_norm (Vector.sub (Ray.point_at ray t) (Sphere.center s))
  = quad_a ray * t * t + quad_b s ray * t + quad_c s ray
    + Sphere.radius s * Sphere.radius s.
Proof.
  unfold quad_a, quad_b, quad_c, Ray.point_at.
  destruct s as [c r m], ray as [o d]; simpl. vector_ring.
Qed.

Lemma near_root_is_root (s : Sphere.t) (ray : Ray.t) :
  Ray.direction ray <> Vector.mk 0 0 0 ->
  0 <= discriminant s ray ->
  quad_a ray * near_root s ray * near_root s ray
  + quad_b s ray * near_root s ray + quad_c s ray = 0.
Proof.
  intros Hdir Hd. pose proof (quad_a_pos ray Hdir) as Ha.
  pose proof (sqrt_sqrt _ Hd) as Hs.
  set (q := sqrt (discriminant s ray)) in *.
  assert (Ht : 2 * quad_a ray * near_root s ray = - quad_b s ray - q)
    by (unfold near_root; fold q; field; lra).
  unfold discriminant in Hs.
  set (t := near_root s ray) in *.
  set (a := quad_a ray) in *. set (b := quad_b s ray) in *.
  set (c := quad_c s ray) in *.
  assert (H4 : 4 * a * (a * t * t + b * t + c) = 0).
  { replace (4 * a * (a * t * t + b * t + c))
      with ((2 * a * t) * (2 * a * t) + 2 * b * (2 * a * t) + 4 * a * c)
      by ring.
    rewrite Ht. nra. }
  apply Rmult_integral in H4 as [H4 | H4]; [ lra | exact H4 ].
Qed.

Lemma intersect_some (s : Sphere.t) (ray : Ray.t) (t : R) :
  Sphere.intersect s ray = Some t ->
  0 <= discriminant s ray /\ t = near_root s ray /\ 0 <= t.
Proof.
  rewrite intersect_quadratic.
  destruct (Rle_dec 0 (discriminant s ray)) as [Hd | Hd]; [ | discriminate ].
  destruct (Rle_dec 0 (near_root s ray)) as [Ht | Ht]; [ | discriminate ].
  intros [= <-]. now repeat split.
Qed.

(** X6: when [Sphere.intersect] answers [t] for a ray whose direction is not
    the zero vector, [t] is not negative and the point of the ray at [t]
    lies on the sphere: its squared distance from the centre is the squared
    radius. *)
Theorem intersect_point_on_sphere (s : Sphere.t) (ray : Ray.t) (t : R) :
  Ray.direction ray <> Vector.mk 0 0 0 ->
  Sphere.intersect s ray = Some t ->
  0 <= t
  /\ Vector.squared_norm (Vector.sub (Ray.point_at ray t) (Sphere.center s))
     = Sphere.radius s * Sphere.radius s.
Proof.
  intros Hdir Hhit. apply intersect_some in Hhit as (Hd & -> & Ht).
  split; [ exact Ht | ].
  rewrite point_at_squared_distance.
  pose proof (near_root_is_root s ray Hdir Hd). lra.
Qed.

Lemma intersect_point_on_sphere_witness :
  Vector.squared_norm
    (Vector.sub (Ray.point_at demo_ray 4) (Sphere.center demo_sphere))
  = Sphere.radius demo_sphere * Sphere.radius demo_sphere.
Proof.
  apply (intersect_point_on_sphere demo_sphere demo_ray 4).
  - simpl. intros [= H]. lra.
  - apply demo_intersect.
Defined.

Lemma intersect_none_if (s : Sphere.t) (ray : Ray.t) :
  (0 <= discriminant s ray -> near_root s ray < 0) ->
  Sphere.intersect s ray = None.
Proof.
  intros H. rewrite intersect_quadratic.
  destruct (Rle_dec 0 (discriminant s ray)) as [Hd | Hd]; [ | reflexivity ].
  destruct (Rle_dec 0 (near_root s ray)) as [Ht | Ht]; [ | reflexivity ].
  specialize (H Hd). lra.
Qed.

Lemma near_root_neg (s : Sphere.t) (ray : Ray.t) :
  Ray.direction ray <> Vector.mk 0 0 0 ->
  - quad_b s ray - sqrt (discriminant s ray) < 0 ->
  near_root s ray < 0.
Proof.
  intros Hdir Hnum. pose proof (quad_a_pos ray Hdir) as Ha.
  unfold near_root, Rdiv.
  assert (Hinv : 0 < / (2 * quad_a ray)) by (apply Rinv_0_lt_compat; lra).
  nra.
Qed.

(** X7: a ray that starts strictly inside a sphere, with a direction that is
    not the zero vector, gets no hit: the near root lies behind the origin
    and the far root is not tried. *)
Theorem intersect_from_inside (s : Sphere.t) (ray : Ray.t) :
  Ray.direction ray <> Vector.mk 0 0 0 ->
  Vector.squared_norm (Vector.sub (Ray.origin ray) (Sphere.center s))
  < Sphere.radius s * Sphere.radius s ->
  Sphere.intersect s ray = None.
Proof.
  intros Hdir Hin. apply intersect_none_if. intros Hd.
  apply near_root_neg; [ exact Hdir | ].
  pose proof (quad_a_pos ray Hdir) as Ha.
  assert (Hc : quad_c s ray < 0) by (unfold quad_c; lra).
  pose proof (sqrt_sqrt _ Hd) as Hs. pose proof (sqrt_pos (discriminant s ray)) as Hq.
  set (q := sqrt (discriminant s ray)) in *. unfold discriminant in Hs.
  assert (Hlt : quad_b s ray * quad_b s ray < q * q) by nra.
  nra.
Qed.

Lemma intersect_from_inside_witness :
  Sphere.intersect demo_sphere (Ray.mk ORIGIN (Vector.mk 0 0 1)) = None.
Proof.
  apply (intersect_from_inside demo_sphere (Ray.mk ORIGIN (Vector.mk 0 0 1))).
  - simpl. intros [= H]. lra.
  - unfold Vector.squared_norm, Vector.dot, Vector.sub; simpl. lra.
Defined.

(** X8: a ray that starts outside a sphere and does not point towards it
    (the direction makes no acute angle with the way to the centre) gets no
    hit. *)
Theorem intersect_pointing_away (s : Sphere.t) (ray : Ray.t) :
  Ray.direction ray <> Vector.mk 0 0 0 ->
  Sphere.radius s * Sphere.radius s
  < Vector.squared_norm (Vector.sub (Ray.origin ray) (Sphere.center s)) ->
  0 <= Vector.dot (Vector.sub (Ray.origin ray) (Sphere.center s))
                  (Ray.direction ray) ->
  Sphere.intersect s ray = None.
Proof.
  intros Hdir Hout Haway. apply intersect_none_if. intros Hd.
  apply near_root_neg; [ exact Hdir | ].
  pose proof (quad_a_pos ray Hdir) as Ha.
  assert (Hc : 0 < quad_c s ray) by (unfold quad_c; lra).
  assert (Hb : 0 <= quad_b s ray) by (unfold quad_b; lra).
  pose proof (sqrt_pos (discriminant s ray)) as Hq.
  pose proof (sqrt_sqrt _ Hd) as Hs.
  set (q := sqrt (discriminant s ray)) in *. unfold discriminant in Hs.
  destruct (Req_dec_T (quad_b s ray) 0) as [Hb0 | Hb0]; [ | lra ].
  rewrite Hb0 in Hs. nra.
Qed.

Lemma intersect_pointing_away_witness :
  Sphere.intersect demo_sphere (Ray.mk demo_camera (Vector.mk 0 0 (-1)))
  = None.
Proof.
  apply (intersect_pointing_away demo_sphere
           (Ray.mk demo_camera (Vector.mk 0 0 (-1)))).
  - simpl. intros [= H]. lra.
  - unfold Vector.squared_norm, Vector.dot, Vector.sub; simpl. lra.
  - unfold Vector.dot, Vector.sub; simpl. lra.
Defined.

Lemma discriminant_cross (s : Sphere.t) (ray : Ray.t) :
  discriminant s ray
  = 4 * (Sphere.radius s * Sphere.radius s
         * Vector.squared_norm (Ray.direction ray)
         - Vector.squared_norm
             (Vector.cross (Vector.sub (Ray.origin ray) (Sphere.center s))
                           (Ray.direction ray))).
Proof.
  rewrite lagrange_identity.
  unfold discriminant, quad_a, quad_b, quad_c. ring.
Qed.

Lemma intersect_miss_far_line (s : Sphere.t) (ray : Ray.t) :
  Sphere.radius s * Sphere.radius s * Vector.squared_norm (Ray.direction ray)
  < Vector.squared_norm
      (Vector.cross (Vector.sub (Ray.origin ray) (Sphere.center s))
                    (Ray.direction ray)) ->
  Sphere.intersect s ray = None.
Proof.
  intros Hfar. apply intersect_none_if. rewrite discriminant_cross. lra.
Qed.

(** X9: a ray whose supporting line passes farther from the centre than the
    radius gets no hit: with [w] the vector from the centre to the origin
    and [D] the direction, [|w x D|^2 > r^2 |D|^2] makes the discriminant
    negative. *)
Theorem intersect_miss (s : Sphere.t) (ray : Ray.t) :
  Sphere.radius s * Sphere.radius s * Vector.squared_norm (Ray.direction ray)
  < Vector.squared_norm
      (Vector.cross (Vector.sub (Ray.origin ray) (Sphere.center s))
                    (Ray.direction ray)) ->
  discriminant s ray < 0 /\ Sphere.intersect s ray = None.
Proof.
  intros Hfar.
  assert (Hd : discriminant s ray < 0) by (rewrite discriminant_cross; lra).
  split; [ exact Hd | ]. apply intersect_none_if. lra.
Qed.

Lemma intersect_miss_witness :
  Sphere.intersect demo_sphere (Ray.mk (Vector.mk 0 5 (-5)) (Vector.mk 0 0 1))
  = None.
Proof.
  apply (intersect_miss demo_sphere
           (Ray.mk (Vector.mk 0 5 (-5)) (Vector.mk 0 0 1))).
  unfold Vector.squared_norm, Vector.dot, Vector.cross, Vector.sub; simpl.
  lra.
Defined.

Lemma quadratic_scale_direction (s : Sphere.t) (o : Point) (d : Vector.t)
    (k : R) :
  quad_a (Ray.mk o (Vector.scale k d)) = k * k * quad_a (Ray.mk o d)
  /\ quad_b s (Ray.mk o (Vector.scale k d)) = k * quad_b s (Ray.mk o d)
  /\ quad_c s (Ray.mk o (Vector.scale k d)) = quad_c s (Ray.mk o d)
  /\ discriminant s (Ray.mk o (Vector.scale k d))
     = k * k * discriminant s (Ray.mk o d).
Proof.
  unfold discriminant, quad_a, quad_b, quad_c.
  destruct s as [c r m]; simpl. repeat split; vector_ring.
Qed.

Lemma near_root_scale_direction (s : Sphere.t) (o : Point) (d : Vector.t)
    (k : R) :
  0 < k ->
  d <> Vector.mk 0 0 0 ->
  0 <= discriminant s (Ray.mk o d) ->
  near_root s (Ray.mk o (Vector.scale k d)) = near_root s (Ray.mk o d) / k.
Proof.
  intros Hk Hd Hdisc.
  destruct (quadratic_scale_direction s o d k) as (Ha & Hb & _ & HD).
  pose proof (quad_a_pos (Ray.mk o d) Hd) as Hapos.
  unfold near_root. rewrite HD, Ha, Hb.
  rewrite sqrt_mult_alt by nra. rewrite sqrt_square by lra.
  field. lra.
Qed.

(** X10: stretching the direction of a ray by a factor [k > 0] divides the
    answer of [Sphere.intersect] by [k] and leaves the point that is hit
    where it was: whether and where a ray meets a sphere does not depend on
    the length of its direction. *)
Theorem intersect_scale_direction (s : Sphere.t) (o : Point) (d : Vector.t)
    (k : R) :
  0 < k ->
  d <> Vector.mk 0 0 0 ->
  Sphere.intersect s (Ray.mk o (Vector.scale k d))
  = option_map (fun t => t / k) (Sphere.intersect s (Ray.mk o d))
  /\ forall t, Sphere.intersect s (Ray.mk o d) = Some t ->
       Ray.point_at (Ray.mk o (Vector.scale k d)) (t / k)
       = Ray.point_at (Ray.mk o d) t.
Proof.
  intros Hk Hd. split.
  - destruct (quadratic_scale_direction s o d k) as (_ & _ & _ & HD).
    rewrite !intersect_quadratic, HD.
    destruct (Rle_dec 0 (discriminant s (Ray.mk o d))) as [Hdisc | Hdisc].
    + destruct (Rle_dec 0 (k * k * discriminant s (Ray.mk o d)))
        as [_ | Hn]; [ | exfalso; apply Hn; nra ].
      rewrite near_root_scale_direction by assumption.
      assert (Hinv : 0 < / k) by now apply Rinv_0_lt_compat.
      destruct (Rle_dec 0 (near_root s (Ray.mk o d))) as [Ht | Ht];
        destruct (Rle_dec 0 (near_root s (Ray.mk o d) / k)) as [Htk | Htk];
        try reflexivity; exfalso; unfold Rdiv in *; nra.
    + destruct (Rle_dec 0 (k * k * discriminant s (Ray.mk o d)))
        as [Hn | _]; [ exfalso | reflexivity ].
      apply Rnot_le_lt in Hdisc. assert (Hkk : 0 < k * k) by nra. nra.
  - intros t _. unfold Ray.point_at; simpl.
    destruct o as [ox oy oz], d as [dx dy dz].
    unfold Vector.add, Vector.scale; simpl. f_equal; field; lra.
Qed.

Lemma intersect_scale_direction_witness :
  Sphere.intersect demo_sphere
    (Ray.mk demo_camera (Vector.scale 2 (Vector.mk 0 0 1)))
  = option_map (fun t => t / 2)
      (Sphere.intersect demo_sphere (Ray.mk demo_camera (Vector.mk 0 0 1))).
Proof.
  apply (intersect_scale_direction demo_sphere demo_camera
           (Vector.mk 0 0 1) 2).
  - lra.
  - intros [= H]. lra.
Defined.

Lemma norm_of_squared (v : Vector.t) (r : R) :
  0 <= r -> Vector.squared_norm v = r * r -> Vector.norm v = r.
Proof.
  intros Hr Hsq. unfold Vector.norm.
  change (sqrt (Vector.squared_norm v) = r).
  rewrite Hsq. now apply sqrt_square.
Qed.

(** X11: at a point where a ray with a direction other than the zero vector
    meets a sphere of positive radius, [normal_at] is the vector from the
    centre to that point divided by the radius, and it has norm 1. *)
Theorem normal_at_hit (s : Sphere.t) (ray : Ray.t) (t : R) :
  Ray.direction ray <> Vector.mk 0 0 0 ->
  0 < Sphere.radius s ->
  Sphere.intersect s ray = Some t ->
  Sphere.normal_at s (Ray.point_at ray t)
  = Vector.truediv (Vector.sub (Ray.point_at ray t) (Sphere.center s))
                   (Sphere.radius s)
  /\ Vector.norm (Sphere.normal_at s (Ray.point_at ray t)) = 1.
Proof.
  intros Hdir Hr Hhit.
  assert (Hsq : Vector.squared_norm
                  (Vector.sub (Ray.point_at ray t) (Sphere.center s))
                = Sphere.radius s * Sphere.radius s).
  { destruct (intersect_some s ray t Hhit) as (Hd & -> & _).
    rewrite point_at_squared_distance.
    pose proof (near_root_is_root s ray Hdir Hd). lra. }
  assert (Hn : Vector.norm (Vector.sub (Ray.point_at ray t) (Sphere.center s))
               = Sphere.radius s) by (apply norm_of_squared; lra).
  unfold Sphere.normal_at, Vector.normalize. rewrite Hn.
  split; [ reflexivity | ].
  rewrite truediv_scale, norm_scale, Hn.
  rewrite Rabs_right by (left; now apply Rinv_0_lt_compat).
  field. lra.
Qed.

Lemma normal_at_hit_witness :
  Vector.norm (Sphere.normal_at demo_sphere (Ray.point_at demo_ray 4)) = 1.
Proof.
  apply (normal_at_hit demo_sphere demo_ray 4).
  - simpl. intros [= H]. lra.
  - simpl. lra.
  - apply demo_intersect.
Defined.

(** ** Color.from_hex and byte conversion *)








(** ** Scene.find_nearest, Scene.trace and Scene.color_at *)

(** The answer of [find_nearest] in terms of membership. *)
Lemma find_nearest_least (sc : Scene.t) (ray : Ray.t) :
  (Scene.find_nearest sc ray = Ok (None, None)
   /\ forall o, In o (Scene.objects sc) -> Sphere.intersect o ray = None)
  \/ (exists (o : Sphere.t) (t : R),
        Scene.find_nearest sc ray = Ok (Some (Ray.point_at ray t), Some o)
        /\ In o (Scene.objects sc)
        /\ Sphere.intersect o ray = Some t
        /\ forall (o' : Sphere.t) (t' : R),
             In o' (Scene.objects sc) ->
             Sphere.intersect o' ray = Some t' -> t <= t').
Proof.
  destruct (find_nearest_loop_inv ray (Scene.objects sc) [] (None, None))
    as (st & Hloop & Hinv).
  { left. split; [ reflexivity | intros o [] ]. }
  simpl in Hinv. unfold Scene.find_nearest. rewrite Hloop.
  destruct Hinv as [[-> Hnone] | (k & o & t & -> & Hk & Ho & Hmin)].
  - left. now split.
  - right. exists o, t. split; [ reflexivity | ].
    split; [ | split; [ exact Ho | ] ].
    + apply list_elem_of_In. now apply list_elem_of_lookup_2 in Hk.
    + intros o' t' Hin Hhit.
      apply list_elem_of_In, list_elem_of_lookup_1 in Hin as [j Hj].
      now destruct (Hmin j o' t' Hj Hhit).
Qed.

Lemma trace_background_or_nearest_cases (sc : Scene.t) (ray : Ray.t) :
  (Scene.trace sc ray = Ok (Ray.bg_color ray)
   /\ forall o, In o (Scene.objects sc) -> Sphere.intersect o ray = None)
  \/ (exists (o : Sphere.t) (t : R),
        Scene.trace sc ray = Scene.color_at sc ray (Ray.point_at ray t) o
        /\ In o (Scene.objects sc)
        /\ Sphere.intersect o ray = Some t
        /\ forall (o' : Sphere.t) (t' : R),
             In o' (Scene.objects sc) ->
             Sphere.intersect o' ray = Some t' -> t <= t').
Proof.
  unfold Scene.trace.
  destruct (find_nearest_least sc ray)
    as [[-> Hnone] | (o & t & -> & Hin & Hhit & Hmin)]; simpl.
  - left. now split.
  - right. exists o, t. now repeat split.
Qed.

(** X13: [trace] answers the background colour of the ray when no object of
    the scene meets it, whether or not a camera and lights are set;
    otherwise it answers what [color_at] gives for an object of least
    intersection parameter at the ray's point for that parameter. *)
Theorem trace_background_or_nearest (sc : Scene.t) (ray : Ray.t) :
  (Scene.trace sc ray = Ok (Ray.bg_color ray)
   /\ forall o, In o (Scene.objects sc) -> Sphere.intersect o ray = None)
  \/ (exists (o : Sphere.t) (t : R),
        Scene.trace sc ray = Scene.color_at sc ray (Ray.point_at ray t) o
        /\ In o (Scene.objects sc)
        /\ Sphere.intersect o ray = Some t
        /\ forall (o' : Sphere.t) (t' : R),
             In o' (Scene.objects sc) ->
             Sphere.intersect o' ray = Some t' -> t <= t').
Proof. apply trace_background_or_nearest_cases. Qed.

(** X14: [color_at] uses the camera, the hit point, the centre of the hit
    object, the colour, diffuse and specular coefficients and exponent of
    its material, and the last light of the scene.  It does not depend on
    the ray it is given, on the objects of the scene, on the radius of the
    hit object, on the ambient coefficient, or on any light but the
    last. *)
Theorem color_at_dependencies (sc sc' : Scene.t) (ray ray' : Ray.t)
    (p : Point) (o o' : Sphere.t) (cam : Point) (l : Light.t)
    (ls ls' : list Light.t) :
  Scene.camera sc = Some cam ->
  Scene.camera sc' = Some cam ->
  Scene.lights sc = ls ++ [l] ->
  Scene.lights sc' = ls' ++ [l] ->
  Sphere.center o = Sphere.center o' ->
  Material.color (Sphere.material o) = Material.color (Sphere.material o') ->
  Material.diffuse (Sphere.material o)
  = Material.diffuse (Sphere.material o') ->
  Material.specular (Sphere.material o)
  = Material.specular (Sphere.material o') ->
  Material.specular_k (Sphere.material o)
  = Material.specular_k (Sphere.material o') ->
  Scene.color_at sc ray p o = Scene.color_at sc' ray' p o'.
Proof.
  intros Hc Hc' Hl Hl' Hcen Hcol Hdif Hspe Hk.
  rewrite (color_at_last_light sc ray p o cam ls l Hc Hl).
  rewrite (color_at_last_light sc' ray' p o' cam ls' l Hc' Hl').
  unfold Scene.light_color, Sphere.normal_at.
  now rewrite Hcen, Hcol, Hdif, Hspe, Hk.
Qed.

Lemma color_at_dependencies_witness :
  Scene.color_at (demo_scene [white_light; red_light]) demo_ray demo_point
                 demo_sphere
  = Scene.color_at (demo_scene [red_light])
                   (Ray.mk ORIGIN (Vector.mk 0 1 0)) demo_point
                   (Sphere.mk ORIGIN 2 (Material.mk WHITE 1 1 1 50)).
Proof.
  apply (color_at_dependencies _ _ _ _ _ _ _ demo_camera red_light
           [white_light] []); reflexivity.
Defined.

Lemma py_max_0_range (v : R) : v <= 1 -> 0 <= py_max 0 v <= 1.
Proof.
  intros Hv. unfold py_max. destruct (Rlt_dec 0 v); lra.
Qed.

Lemma pow_unit_range (v : R) (k : nat) : 0 <= v <= 1 -> 0 <= v ^ k <= 1.
Proof.
  intros [Hlo Hhi]. split; [ now apply pow_le | ].
  rewrite <- (pow1 k). apply pow_incr. lra.
Qed.

(** X15: when the normal has norm 1 and the sum of the direction to the
    light and the direction to the camera is not the zero vector, the
    colour that one light contributes is the diffuse term plus the light's
    colour times the specular coefficient times a factor between 0 and 1;
    the diffuse factor is the larger of 0 and the dot product of the normal
    with the direction to the light as it is, not normalised. *)
Theorem light_color_specular_bounded (normal : Vector.t) (m : Material.t)
    (to_cam : Vector.t) (p : Point) (l : Light.t) :
  Vector.norm normal = 1 ->
  Vector.add (Vector.sub (Light.position l) p) to_cam <> Vector.mk 0 0 0 ->
  exists f : R,
    0 <= f <= 1
    /\ Scene.light_color normal m to_cam p l
       = Color.add
           (Color.scale
              (Color.scale (Material.color m) (Material.diffuse m))
              (Rmax 0 (Vector.dot normal (Vector.sub (Light.position l) p))))
           (Color.scale
              (Color.scale (Light.color l) (Material.specular m)) f).
Proof.
  intros Hn Hsum.
  exists (py_max 0
            (Vector.matmul normal
               (Vector.normalize
                  (Vector.add (Vector.sub (Light.position l) p) to_cam)))
          ^ Material.specular_k m).
  split.
  - apply pow_unit_range, py_max_0_range.
    apply dot_unit_le; [ exact Hn | now apply norm_normalize ].
  - unfold Scene.light_color, Ray.from_points; simpl.
    now rewrite py_max_Rmax.
Qed.

Lemma light_color_specular_bounded_witness :
  exists f : R,
    0 <= f <= 1
    /\ Scene.light_color (Vector.mk 0 0 (-1)) (Material.default WHITE)
         (Vector.mk 0 0 (-4)) demo_point white_light
       = Color.add
           (Color.scale
              (Color.scale (Material.color (Material.default WHITE))
                           (Material.diffuse (Material.default WHITE)))
              (Rmax 0 (Vector.dot (Vector.mk 0 0 (-1))
                         (Vector.sub (Light.position white_light)
                                     demo_point))))
           (Color.scale
              (Color.scale (Light.color white_light)
                           (Material.specular (Material.default WHITE))) f).
Proof.
  apply (light_color_specular_bounded (Vector.mk 0 0 (-1))
           (Material.default WHITE) (Vector.mk 0 0 (-4)) demo_point
           white_light).
  - rewrite norm_z_axis. rewrite Rabs_left; lra.
  - unfold Vector.add, Vector.sub; simpl. intros [= H]. lra.
Defined.

Lemma demo_find_nearest :
  Scene.find_nearest (demo_scene []) demo_ray
  = Ok (Some (Ray.point_at demo_ray 4), Some demo_sphere).
Proof.
  unfold Scene.find_nearest; simpl.
  unfold Scene.find_nearest_step. now rewrite demo_intersect.
Qed.

(** X16: when [find_nearest] answers a point and an object for a ray whose
    direction is not the zero vector, the object belongs to the scene, the
    point is the ray's point at the object's intersection parameter, which
    is not negative, and the point lies on the object's surface. *)
Theorem find_nearest_point_on_object (sc : Scene.t) (ray : Ray.t)
    (p : Point) (o : Sphere.t) :
  Ray.direction ray <> Vector.mk 0 0 0 ->
  Scene.find_nearest sc ray = Ok (Some p, Some o) ->
  In o (Scene.objects sc)
  /\ (exists t, 0 <= t /\ Sphere.intersect o ray = Some t
                /\ p = Ray.point_at ray t)
  /\ Vector.squared_norm (Vector.sub p (Sphere.center o))
     = Sphere.radius o * Sphere.radius o.
Proof.
  intros Hdir Hfound.
  destruct (find_nearest_least sc ray)
    as [[Hnone _] | (o1 & t & Heq & Hin & Hhit & _)];
    rewrite Hfound in *; [ discriminate | ].
  injection Heq as -> ->.
  destruct (intersect_some o1 ray t Hhit) as (Hd & Ht & Hpos).
  split; [ exact Hin | ]. split; [ now exists t | ].
  rewrite point_at_squared_distance. subst t.
  pose proof (near_root_is_root o1 ray Hdir Hd). lra.
Qed.

Lemma find_nearest_point_on_object_witness :
  Vector.squared_norm
    (Vector.sub (Ray.point_at demo_ray 4) (Sphere.center demo_sphere))
  = Sphere.radius demo_sphere * Sphere.radius demo_sphere.
Proof.
  apply (find_nearest_point_on_object (demo_scene []) demo_ray
           (Ray.point_at demo_ray 4) demo_sphere).
  - simpl. intros [= H]. lra.
  - apply demo_find_nearest.
Defined.

(** X17: the order in which the objects were added to the scene does not
    change whether [find_nearest] finds a hit, nor the point that is hit:
    for two scenes whose object lists are permutations of each other, both
    answers are [(None, None)], or both give the same point and objects
    with the same intersection parameter. *)
Theorem find_nearest_permutation (sc sc' : Scene.t) (ray : Ray.t) :
  Permutation (Scene.objects sc) (Scene.objects sc') ->
  (Scene.find_nearest sc ray = Ok (None, None)
   /\ Scene.find_nearest sc' ray = Ok (None, None))
  \/ (exists (t : R) (o o' : Sphere.t),
        Scene.find_nearest sc ray = Ok (Some (Ray.point_at ray t), Some o)
        /\ Scene.find_nearest sc' ray
           = Ok (Some (Ray.point_at ray t), Some o')
        /\ Sphere.intersect o ray = Some t
        /\ Sphere.intersect o' ray = Some t).
Proof.
  intros Hperm.
  destruct (find_nearest_least sc ray)
    as [[Heq Hnone] | (o & t & Heq & Hin & Hhit & Hmin)];
    destruct (find_nearest_least sc' ray)
      as [[Heq' Hnone'] | (o' & t' & Heq' & Hin' & Hhit' & Hmin')].
  - left. now split.
  - exfalso. apply (Permutation_in _ (Permutation_sym Hperm)) in Hin'.
    rewrite (Hnone _ Hin') in Hhit'. discriminate.
  - exfalso. apply (Permutation_in _ Hperm) in Hin.
    rewrite (Hnone' _ Hin) in Hhit. discriminate.
  - right. exists t, o, o'.
    assert (Hle : t <= t').
    { apply (Hmin o'); [ | exact Hhit' ].
      now apply (Permutation_in _ (Permutation_sym Hperm)). }
    assert (Hge : t' <= t).
    { apply (Hmin' o); [ | exact Hhit ]. now apply (Permutation_in _ Hperm). }
    assert (Et : t' = t) by lra. subst t'. now repeat split.
Qed.

Lemma find_nearest_permutation_witness :
  (Scene.find_nearest
     (Scene.mk None [demo_sphere; Sphere.mk ORIGIN 2 (Material.default RED)] [])
     demo_ray = Ok (None, None)
   /\ Scene.find_nearest
        (Scene.mk None [Sphere.mk ORIGIN 2 (Material.default RED); demo_sphere] [])
        demo_ray = Ok (None, None))
  \/ (exists (t : R) (o o' : Sphere.t),
        Scene.find_nearest
          (Scene.mk None
             [demo_sphere; Sphere.mk ORIGIN 2 (Material.default RED)] [])
          demo_ray = Ok (Some (Ray.point_at demo_ray t), Some o)
        /\ Scene.find_nearest
             (Scene.mk None
                [Sphere.mk ORIGIN 2 (Material.default RED); demo_sphere] [])
             demo_ray = Ok (Some (Ray.point_at demo_ray t), Some o')
        /\ Sphere.intersect o demo_ray = Some t
        /\ Sphere.intersect o' demo_ray = Some t).
Proof.
  apply (find_nearest_permutation
           (Scene.mk None
              [demo_sphere; Sphere.mk ORIGIN 2 (Material.default RED)] [])
           (Scene.mk None
              [Sphere.mk ORIGIN 2 (Material.default RED); demo_sphere] [])
           demo_ray).
  simpl. apply perm_swap.
Defined.

(** ** Scene.render: the content of the image *)

Section RenderContent.

Variables (sc : Scene.t) (cam : Point) (width height : Z).
Variables (x0 x_step y0 y_step : R).

Hypothesis camera_set : Scene.camera sc = Some cam.

Hypothesis trace_ok :
  forall i j : Z,
    (0 <= i < width)%Z -> (0 <= j < height)%Z ->
    exists c,
      Scene.trace sc (sample_ray cam x0 x_step y0 y_step i j) = Ok c.

Lemma render_pixel_content (i j : Z) (st : Scene.render_state) :
  (0 <= i < width)%Z -> (0 <= j < height)%Z ->
  render_content_inv sc cam x0 x_step y0 y_step width height st ->
  exists st',
    Scene.render_pixel sc x0 x_step (y0 + IZR j * y_step) j st i = Ok st'
    /\ render_content_inv sc cam x0 x_step y0 y_step width height st'
    /\ snd st' = (i, j) :: snd st.
Proof using camera_set trace_ok.
  intros Hi Hj (Hwf & Hw & Hh & Hlog).
  unfold Scene.render_pixel. rewrite camera_set.
  destruct (trace_ok i j Hi Hj) as [c Hc].
  unfold sample_ray in Hc. rewrite Hc. simpl.
  assert (Hset : exists img', Image.set_pixel (fst st) i j c = Ok img').
  { destruct (set_pixel_cases (fst st) i j c Hwf)
      as [(_ & _ & _ & _ & row & _ & Heq) | [Hout _]];
      [ eexists; exact Heq | exfalso; apply Hout; rewrite Hw, Hh; lia ]. }
  destruct Hset as [img' Heq].
  destruct (set_pixel_write _ _ i j c Hwf Heq)
    as (Hwf' & Hw' & Hh' & Hcell & Hother).
  rewrite Hw, Hh, !Z2Nat.id in Hcell, Hother by lia.
  unfold wrap in Hcell, Hother.
  destruct (Z.leb_spec 0 i) as [_ | Hneg]; [ | lia ].
  destruct (Z.leb_spec 0 j) as [_ | Hneg]; [ | lia ].
  rewrite Heq. simpl. eexists. split; [ reflexivity | ].
  split; [ | reflexivity ].
  split; [ exact Hwf' | ].
  split; [ simpl; congruence | split; [ simpl; congruence | ] ].
  simpl. intros px py [[= <- <-] | Hin].
  - split; [ lia | split; [ lia | ] ]. now exists c.
  - destruct (Hlog px py Hin) as (Hpx & Hpy & c0 & Htr & Hc0).
    split; [ exact Hpx | split; [ exact Hpy | ] ].
    destruct (Z.eq_dec px i) as [-> | Ex];
      [ destruct (Z.eq_dec py j) as [-> | Ey] | ].
    + exists c. split; [ exact Hc | exact Hcell ].
    + exists c0. split; [ exact Htr | ].
      rewrite Hother; [ exact Hc0 | ]. intros [_ E]. apply Ey. lia.
    + exists c0. split; [ exact Htr | ].
      rewrite Hother; [ exact Hc0 | ]. intros [E _]. apply Ex. lia.
Qed.

Lemma render_row_content (j : Z) (st : Scene.render_state) :
  (0 <= j < height)%Z ->
  render_content_inv sc cam x0 x_step y0 y_step width height st ->
  exists st',
    Scene.render_row sc width x0 x_step y0 y_step st j = Ok st'
    /\ render_content_inv sc cam x0 x_step y0 y_step width height st'
    /\ snd st' = rev (map (fun i => (i, j)) (range width)) ++ snd st.
Proof using camera_set trace_ok.
  intros Hj Hinv. unfold Scene.render_row.
  destruct (for_in_invariant
              (fun done s =>
                 render_content_inv sc cam x0 x_step y0 y_step width height s
                 /\ snd s = rev (map (fun i => (i, j)) done) ++ snd st)
              (Scene.render_pixel sc x0 x_step (y0 + IZR j * y_step) j)
              (range width) [] st) as (st' & Hloop & Hinv' & Hlog).
  - now split.
  - intros done i s1 [Hinv1 Hlog1] Hin. apply in_range in Hin.
    destruct (render_pixel_content i j s1 Hin Hj Hinv1)
      as (s2 & Hstep & Hinv2 & Hlog2).
    exists s2. split; [ exact Hstep | ]. split; [ exact Hinv2 | ].
    rewrite Hlog2, Hlog1, map_app, rev_app_distr. reflexivity.
  - exists st'. split; [ exact Hloop | ]. split; [ exact Hinv' | exact Hlog ].
Qed.

Lemma render_loop_content :
  exists st',
    for_in (range height)
           (Scene.render_row sc width x0 x_step y0 y_step)
           (Image.init width height, []) = Ok st'
    /\ render_content_inv sc cam x0 x_step y0 y_step width height st'
    /\ rev (snd st') = pixel_order width height.
Proof using camera_set trace_ok.
  destruct (for_in_invariant
              (fun done s =>
                 render_content_inv sc cam x0 x_step y0 y_step width height s
                 /\ snd s = rev (flat_map
                                   (fun j => map (fun i => (i, j))
                                                 (range width)) done))
              (Scene.render_row sc width x0 x_step y0 y_step)
              (range height) [] (Image.init width height, []))
    as (st' & Hloop & Hinv' & Hlog).
  - split; [ | reflexivity ].
    split; [ apply wf_image_init | ]. repeat split; contradiction.
  - intros done j s1 [Hinv1 Hlog1] Hin. apply in_range in Hin.
    destruct (render_row_content j s1 Hin Hinv1)
      as (s2 & Hstep & Hinv2 & Hlog2).
    exists s2. split; [ exact Hstep | ]. split; [ exact Hinv2 | ].
    rewrite Hlog2, Hlog1, flat_map_app, rev_app_distr. simpl.
    now rewrite app_nil_r.
  - exists st'. split; [ exact Hloop | ]. split; [ exact Hinv' | ].
    simpl in Hlog. rewrite Hlog. apply rev_involutive.
Qed.

End RenderContent.

Lemma render_content_total (sc : Scene.t) (cam : Point) (width height : Z) :
  Scene.camera sc = Some cam ->
  (1 < width)%Z ->
  (1 < height)%Z ->
  (forall i j : Z,
     (0 <= i < width)%Z -> (0 <= j < height)%Z ->
     exists c, Scene.trace sc (pixel_ray cam width height i j) = Ok c) ->
  exists img : Image.t,
    Scene.render sc width height = Ok img
    /\ wf_image img
    /\ Image.width img = width
    /\ Image.height img = height
    /\ forall i j : nat,
         (Z.of_nat i < width)%Z -> (Z.of_nat j < height)%Z ->
         exists c,
           Scene.trace sc
             (pixel_ray cam width height (Z.of_nat i) (Z.of_nat j)) = Ok c
           /\ cell img i j = Some (Some c).
Proof.
  intros Hcam Hw Hh Htrace.
  assert (Hh0 : IZR height <> 0) by (apply not_0_IZR; lia).
  assert (Hw1 : IZR (width - 1) <> 0) by (apply not_0_IZR; lia).
  assert (Hh1 : IZR (height - 1) <> 0) by (apply not_0_IZR; lia).
  assert (Hratio : IZR width / IZR height <> 0).
  { assert (0 < IZR width) by (apply (IZR_lt 0); lia).
    assert (0 < IZR height) by (apply (IZR_lt 0); lia).
    apply Rgt_not_eq. now apply Rdiv_lt_0_compat. }
  unfold Scene.render, Scene.render_run.
  rewrite (py_div_ok _ _ Hh0); simpl.
  rewrite (py_div_ok _ _ Hw1); simpl.
  rewrite !(py_div_ok _ _ Hratio); simpl.
  rewrite (py_div_ok _ _ Hh1); simpl.
  destruct (render_loop_content sc cam width height (-1)
              ((1 - -1) / IZR (width - 1))
              (-1 / (IZR width / IZR height))
              ((1 / (IZR width / IZR height)
                - -1 / (IZR width / IZR height)) / IZR (height - 1))
              Hcam Htrace)
    as ([img log] & Hloop & (Hwf & Hwd & Hht & Hcells) & Horder).
  simpl in Hwf, Hwd, Hht, Hcells, Horder.
  exists img. rewrite Hloop. simpl.
  split; [ reflexivity | ]. split; [ exact Hwf | ].
  split; [ exact Hwd | ]. split; [ exact Hht | ].
  intros i j Hi Hj.
  destruct (Hcells (Z.of_nat i) (Z.of_nat j)) as (_ & _ & c & Htr & Hc).
  { apply in_rev. rewrite Horder. apply in_pixel_order. lia. }
  exists c. split; [ exact Htr | ]. now rewrite !Nat2Z.id in Hc.
Qed.

(** X18: for a scene with a camera, a width and a height greater than 1,
    and a scene in which [trace] answers a colour for the ray of every
    pixel, [render] returns an image of that size whose cell in column [i]
    of row [j] holds the colour that [trace] answers for the ray from the
    camera through the sample point of pixel [(i, j)]. *)
Theorem render_content (sc : Scene.t) (cam : Point) (width height : Z) :
  Scene.camera sc = Some cam ->
  (1 < width)%Z ->
  (1 < height)%Z ->
  (forall i j : Z,
     (0 <= i < width)%Z -> (0 <= j < height)%Z ->
     exists c, Scene.trace sc (pixel_ray cam width height i j) = Ok c) ->
  exists img : Image.t,
    Scene.render sc width height = Ok img
    /\ wf_image img
    /\ Image.width img = width
    /\ Image.height img = height
    /\ forall i j : nat,
         (Z.of_nat i < width)%Z -> (Z.of_nat j < height)%Z ->
         exists c,
           Scene.trace sc
             (pixel_ray cam width height (Z.of_nat i) (Z.of_nat j)) = Ok c
           /\ cell img i j = Some (Some c).
Proof. apply render_content_total. Qed.

Lemma render_content_witness :
  exists img : Image.t,
    Scene.render (demo_scene [white_light]) 2 2 = Ok img
    /\ wf_image img
    /\ Image.width img = 2%Z
    /\ Image.height img = 2%Z
    /\ forall i j : nat,
         (Z.of_nat i < 2)%Z -> (Z.of_nat j < 2)%Z ->
         exists c,
           Scene.trace (demo_scene [white_light])
             (pixel_ray demo_camera 2 2 (Z.of_nat i) (Z.of_nat j)) = Ok c
           /\ cell img i j = Some (Some c).
Proof.
  apply (render_content (demo_scene [white_light]) demo_camera 2 2).
  - reflexivity.
  - lia.
  - lia.
  - intros i j _ _.
    apply (trace_total _ _ demo_camera); [ reflexivity | discriminate ].
Defined.

Lemma trace_no_objects (sc : Scene.t) (ray : Ray.t) :
  Scene.objects sc = [] -> Scene.trace sc ray = Ok (Ray.bg_color ray).
Proof.
  intros Hobj. unfold Scene.trace, Scene.find_nearest. now rewrite Hobj.
Qed.

(** X19: a scene with a camera and no object renders, for every width and
    height greater than 1, to an image in which every cell holds the
    background colour of its pixel's ray; no light is needed for that. *)
Theorem render_no_objects (sc : Scene.t) (cam : Point) (width height : Z) :
  Scene.camera sc = Some cam ->
  Scene.objects sc = [] ->
  (1 < width)%Z ->
  (1 < height)%Z ->
  exists img : Image.t,
    Scene.render sc width height = Ok img
    /\ forall i j : nat,
         (Z.of_nat i < width)%Z -> (Z.of_nat j < height)%Z ->
         cell img i j
         = Some (Some (Ray.bg_color
                         (pixel_ray cam width height
                                    (Z.of_nat i) (Z.of_nat j)))).
Proof.
  intros Hcam Hobj Hw Hh.
  destruct (render_content_total sc cam width height Hcam Hw Hh)
    as (img & Hrender & _ & _ & _ & Hcells).
  { intros i j _ _. eexists. now apply trace_no_objects. }
  exists img. split; [ exact Hrender | ].
  intros i j Hi Hj. destruct (Hcells i j Hi Hj) as (c & Htr & Hc).
  rewrite trace_no_objects in Htr by assumption. now injection Htr as <-.
Qed.

Lemma render_no_objects_witness :
  exists img : Image.t,
    Scene.render (Scene.set_camera Scene.init demo_camera) 3 2 = Ok img
    /\ forall i j : nat,
         (Z.of_nat i < 3)%Z -> (Z.of_nat j < 2)%Z ->
         cell img i j
         = Some (Some (Ray.bg_color
                         (pixel_ray demo_camera 3 2
                                    (Z.of_nat i) (Z.of_nat j)))).
Proof.
  apply (render_no_objects (Scene.set_camera Scene.init demo_camera)
           demo_camera 3 2); [ reflexivity | reflexivity | lia | lia ].
Defined.

(** X20: for a width and a height greater than 1, the ray of pixel [(i, j)]
    starts at the camera and passes, at parameter 1, through the point
    [(-1 + 2 i / (width - 1), (height / width) (-1 + 2 j / (height - 1)), 0)]:
    the samples are evenly spaced, column 0 is at x = -1 and the last
    column at x = 1, row 0 is at y = - height / width and the last row at
    y = height / width. *)
Theorem pixel_ray_sample_point (cam : Point) (width height i j : Z) :
  (1 < width)%Z ->
  (1 < height)%Z ->
  Ray.origin (pixel_ray cam width height i j) = cam
  /\ Ray.point_at (pixel_ray cam width height i j) 1
     = Vector.mk (-1 + 2 * IZR i / IZR (width - 1))
                 (IZR height / IZR width
                  * (-1 + 2 * IZR j / IZR (height - 1)))
                 0
  /\ Vector.x (Ray.point_at (pixel_ray cam width height 0 j) 1) = -1
  /\ Vector.x (Ray.point_at (pixel_ray cam width height (width - 1) j) 1) = 1
  /\ Vector.y (Ray.point_at (pixel_ray cam width height i 0) 1)
     = - (IZR height / IZR width)
  /\ Vector.y (Ray.point_at (pixel_ray cam width height i (height - 1)) 1)
     = IZR height / IZR width.
Proof.
  intros Hw Hh.
  assert (Hw0 : 0 < IZR width) by (apply (IZR_lt 0); lia).
  assert (Hh0 : 0 < IZR height) by (apply (IZR_lt 0); lia).
  assert (Hw1 : 0 < IZR (width - 1)) by (apply (IZR_lt 0); lia).
  assert (Hh1 : 0 < IZR (height - 1)) by (apply (IZR_lt 0); lia).
  assert (Hpt : forall a b : Z,
            Ray.point_at (pixel_ray cam width height a b) 1
            = Vector.mk (-1 + 2 * IZR a / IZR (width - 1))
                (IZR height / IZR width
                 * (-1 + 2 * IZR b / IZR (height - 1))) 0).
  { intros a b.
    unfold pixel_ray, sample_ray, Ray.point_at, Ray.from_points; simpl.
    destruct cam as [cx cy cz].
    unfold Vector.add, Vector.scale, Vector.sub; simpl.
    f_equal; field; lra. }
  split; [ reflexivity | ]. split; [ apply Hpt | ].
  rewrite !Hpt; simpl.
  repeat split; try (field; lra).
Qed.

Lemma pixel_ray_sample_point_witness :
  Ray.origin (pixel_ray demo_camera 2 2 0 0) = demo_camera.
Proof.
  apply (pixel_ray_sample_point demo_camera 2 2 0 0); lia.
Defined.

(** ** Scene.render: the exceptions it raises *)

Lemma for_in_raise {A S : Type} (P : S -> Prop)
    (body : S -> A -> result S) (rest : list A) (e : exn) :
  forall s : S,
    P s ->
    (forall a s1 s2, P s1 -> In a rest -> body s1 a = Ok s2 -> P s2) ->
    for_in rest body s = Raise e ->
    exists a s1, P s1 /\ In a rest /\ body s1 a = Raise e.
Proof.
  induction rest as [ | a rest IH]; intros s Hs Hstep Hraise;
    [ discriminate | ].
  simpl in Hraise. destruct (body s a) as [s2 | e'] eqn:Hbody.
  - simpl in Hraise.
    destruct (IH s2) as (b & s1 & Hs1 & Hin & Hb); try assumption.
    + apply (Hstep a s s2); [ exact Hs | now left | exact Hbody ].
    + intros b s1 s3 Hs1 Hin. apply Hstep; [ exact Hs1 | now right ].
    + exists b, s1. split; [ exact Hs1 | ]. split; [ now right | exact Hb ].
  - simpl in Hraise. injection Hraise as ->.
    exists a, s. split; [ exact Hs | ]. split; [ now left | exact Hbody ].
Qed.

Lemma for_in_ok {A S : Type} (P : S -> Prop)
    (body : S -> A -> result S) (rest : list A) :
  forall s s' : S,
    P s ->
    (forall a s1 s2, P s1 -> In a rest -> body s1 a = Ok s2 -> P s2) ->
    for_in rest body s = Ok s' ->
    P s'.
Proof.
  induction rest as [ | a rest IH]; intros s s' Hs Hstep Hok.
  - simpl in Hok. now injection Hok as <-.
  - simpl in Hok. destruct (body s a) as [s2 | e'] eqn:Hbody;
      simpl in Hok; [ | discriminate ].
    apply (IH s2 s'); [ | | exact Hok ].
    + apply (Hstep a s s2); [ exact Hs | now left | exact Hbody ].
    + intros b s1 s3 Hs1 Hin. apply Hstep; [ exact Hs1 | now right ].
Qed.

Lemma trace_raise (sc : Scene.t) (ray : Ray.t) (e : exn) :
  Scene.trace sc ray = Raise e ->
  (exists o, In o (Scene.objects sc) /\ Sphere.intersect o ray <> None)
  /\ ((Scene.camera sc = None /\ e = TypeError)
      \/ (Scene.camera sc <> None /\ Scene.lights sc = []
          /\ e = UnboundLocalError)).
Proof.
  intros Htrace.
  destruct (trace_background_or_nearest_cases sc ray)
    as [[Hbg _] | (o & t & Heq & Hin & Hhit & _)];
    rewrite Htrace in *; [ discriminate | ].
  split; [ exists o; split; [ exact Hin | rewrite Hhit; discriminate ] | ].
  symmetry in Heq. unfold Scene.color_at in Heq.
  destruct (Scene.camera sc) as [cam | ] eqn:Hcam.
  - right. split; [ discriminate | ].
    destruct (Scene.lights sc) as [ | l ls] eqn:Hls.
    + simpl in Heq. injection Heq as <-. now split.
    + exfalso.
      assert (Hne : l :: ls <> []) by discriminate.
      destruct (exists_last Hne) as (ls' & l' & Hlast).
      rewrite Hlast, fold_left_overwrite in Heq. discriminate.
  - left. injection Heq as <-. now split.
Qed.

Lemma py_index_raise (len : nat) (i : Z) (e : exn) :
  py_index len i = Raise e -> e = IndexError.
Proof.
  unfold py_index.
  destruct ((0 <=? i) && (i <? Z.of_nat len))%Z; [ discriminate | ].
  destruct ((i <? 0) && (- Z.of_nat len <=? i))%Z; [ discriminate | ].
  now intros [= <-].
Qed.

Lemma set_pixel_raise (img : Image.t) (x y : Z) (c : Color.t) (e : exn) :
  Image.set_pixel img x y c = Raise e -> e = IndexError.
Proof.
  unfold Image.set_pixel, py_getitem, py_setitem.
  destruct (py_index (length (Image.pixels img)) y) as [iy | e1] eqn:Hy;
    simpl; [ | intros [= <-]; now apply py_index_raise in Hy ].
  destruct (Image.pixels img !! iy) as [row | ]; simpl;
    [ | now intros [= <-] ].
  destruct (py_index (length row) x) as [ix | e2] eqn:Hx;
    simpl; [ discriminate | intros [= <-]; now apply py_index_raise in Hx ].
Qed.

(** The shape of the image under construction. *)
Lemma render_pixel_shape (sc : Scene.t) (width height : Z)
    (x0 x_step y : R) (i j : Z) (st st' : Scene.render_state) :
  wf_image (fst st) /\ Image.width (fst st) = width
  /\ Image.height (fst st) = height ->
  Scene.render_pixel sc x0 x_step y j st i = Ok st' ->
  wf_image (fst st') /\ Image.width (fst st') = width
  /\ Image.height (fst st') = height.
Proof.
  intros (Hwf & Hw & Hh). unfold Scene.render_pixel.
  destruct (Scene.camera sc) as [cam | ]; [ | discriminate ].
  destruct (Scene.trace sc _) as [c | ]; simpl; [ | discriminate ].
  destruct (Image.set_pixel (fst st) i j c) as [img' | ] eqn:Hset; simpl;
    [ | discriminate ].
  intros [= <-]. simpl.
  destruct (set_pixel_write _ _ i j c Hwf Hset) as (Hwf' & Hw' & Hh' & _).
  split; [ exact Hwf' | split; congruence ].
Qed.

Lemma render_pixel_raise (sc : Scene.t) (width height : Z)
    (x0 x_step y0 y_step : R) (i j : Z) (st : Scene.render_state) (e : exn) :
  wf_image (fst st) /\ Image.width (fst st) = width
  /\ Image.height (fst st) = height ->
  (0 <= i < width)%Z -> (0 <= j < height)%Z ->
  Scene.render_pixel sc x0 x_step (y0 + IZR j * y_step) j st i = Raise e ->
  (Scene.camera sc = None /\ e = TypeError)
  \/ (exists cam,
        Scene.camera sc = Some cam /\ Scene.lights sc = []
        /\ e = UnboundLocalError
        /\ exists o, In o (Scene.objects sc)
                     /\ Sphere.intersect o
                          (sample_ray cam x0 x_step y0 y_step i j) <> None).
Proof.
  intros (Hwf & Hw & Hh) Hi Hj. unfold Scene.render_pixel.
  destruct (Scene.camera sc) as [cam | ] eqn:Hcam;
    [ | intros [= <-]; now left ].
  fold (sample_ray cam x0 x_step y0 y_step i j).
  destruct (Scene.trace sc (sample_ray cam x0 x_step y0 y_step i j))
    as [c | e'] eqn:Htrace; simpl.
  - destruct (Image.set_pixel (fst st) i j c) as [img' | e''] eqn:Hset;
      simpl; [ discriminate | ].
    exfalso.
    destruct (set_pixel_cases (fst st) i j c Hwf)
      as [(_ & _ & _ & _ & row & _ & Heq) | [Hout _]].
    + rewrite Heq in Hset. discriminate.
    + apply Hout. rewrite Hw, Hh. lia.
  - intros [= <-]. right. exists cam.
    destruct (trace_raise sc _ e' Htrace) as [Hhit [[Hnone _] | (_ & Hls & He)]].
    + rewrite Hcam in Hnone. discriminate.
    + now repeat split.
Qed.

Lemma render_loop_raise (sc : Scene.t) (width height : Z)
    (x0 x_step y0 y_step : R) (e : exn) :
  for_in (range height) (Scene.render_row sc width x0 x_step y0 y_step)
         (Image.init width height, []) = Raise e ->
  exists i j : Z,
    (0 <= i < width)%Z /\ (0 <= j < height)%Z
    /\ ((Scene.camera sc = None /\ e = TypeError)
        \/ (exists cam,
              Scene.camera sc = Some cam /\ Scene.lights sc = []
              /\ e = UnboundLocalError
              /\ exists o, In o (Scene.objects sc)
                           /\ Sphere.intersect o
                                (sample_ray cam x0 x_step y0 y_step i j)
                              <> None)).
Proof.
  intros Hraise.
  set (P := fun st : Scene.render_state =>
              wf_image (fst st) /\ Image.width (fst st) = width
              /\ Image.height (fst st) = height).
  assert (Hpix : forall j i s1 s2,
            P s1 ->
            Scene.render_pixel sc x0 x_step (y0 + IZR j * y_step) j s1 i
            = Ok s2 -> P s2).
  { intros j i s1 s2 Hs1 Hok.
    exact (render_pixel_shape sc width height _ _ _ i j s1 s2 Hs1 Hok). }
  assert (Hinit : P (Image.init width height, [])).
  { split; [ apply wf_image_init | now split ]. }
  assert (Hrows : forall j s1 s2,
            P s1 -> In j (range height) ->
            Scene.render_row sc width x0 x_step y0 y_step s1 j = Ok s2 ->
            P s2).
  { intros j s1 s2 Hs1 _ Hok. unfold Scene.render_row in Hok.
    apply (for_in_ok P _ _ s1 s2 Hs1) in Hok; [ exact Hok | ].
    intros i t1 t2 Ht1 _ Hpx. exact (Hpix j i t1 t2 Ht1 Hpx). }
  destruct (for_in_raise P _ _ e _ Hinit Hrows Hraise)
    as (j & s1 & Hs1 & Hj & Hrow).
  apply in_range in Hj.
  unfold Scene.render_row in Hrow.
  destruct (for_in_raise P _ _ e _ Hs1
              (fun i t1 t2 Ht1 _ Hpx => Hpix j i t1 t2 Ht1 Hpx) Hrow)
    as (i & s2 & Hs2 & Hin & Hpixel).
  apply in_range in Hin.
  exists i, j. split; [ exact Hin | ]. split; [ exact Hj | ].
  exact (render_pixel_raise sc width height x0 x_step y0 y_step i j s2 e
           Hs2 Hin Hj Hpixel).
Qed.

Lemma render_run_loop (sc : Scene.t) (width height : Z) :
  width <> 0%Z -> width <> 1%Z -> height <> 0%Z -> height <> 1%Z ->
  Scene.render_run sc width height
  = for_in (range height)
      (Scene.render_row sc width (-1)
         ((1 - -1) / IZR (width - 1))
         (-1 / (IZR width / IZR height))
         ((1 / (IZR width / IZR height) - -1 / (IZR width / IZR height))
          / IZR (height - 1)))
      (Image.init width height, []).
Proof.
  intros Hw0 Hw1 Hh0 Hh1.
  assert (Eh0 : IZR height <> 0) by (apply not_0_IZR; lia).
  assert (Ew0 : IZR width <> 0) by (apply not_0_IZR; lia).
  assert (Ew1 : IZR (width - 1) <> 0) by (apply not_0_IZR; lia).
  assert (Eh1 : IZR (height - 1) <> 0) by (apply not_0_IZR; lia).
  assert (Hratio : IZR width / IZR height <> 0).
  { unfold Rdiv. apply Rmult_integral_contrapositive_currified;
      [ exact Ew0 | now apply Rinv_neq_0_compat ]. }
  unfold Scene.render_run.
  rewrite (py_div_ok _ _ Eh0), bind_ok.
  rewrite (py_div_ok _ _ Ew1), bind_ok.
  rewrite !(py_div_ok _ _ Hratio), !bind_ok.
  rewrite (py_div_ok _ _ Eh1), bind_ok.
  reflexivity.
Qed.

Lemma render_run_zero_division (sc : Scene.t) (width height : Z) :
  (width = 0 \/ width = 1 \/ height = 0 \/ height = 1)%Z ->
  Scene.render_run sc width height = Raise ZeroDivisionError.
Proof.
  intros Hbad. unfold Scene.render_run.
  destruct (Z.eq_dec height 0%Z) as [-> | Hh0].
  { now rewrite (py_div_by_zero _ (IZR 0)). }
  rewrite (py_div_ok _ (IZR height)), bind_ok by (apply not_0_IZR; lia).
  destruct (Z.eq_dec width 1%Z) as [-> | Hw1].
  { now rewrite (py_div_by_zero _ (IZR (1 - 1))). }
  rewrite (py_div_ok _ (IZR (width - 1))), bind_ok by (apply not_0_IZR; lia).
  destruct (Z.eq_dec width 0%Z) as [-> | Hw0].
  { rewrite (py_div_by_zero (-1) (IZR 0 / IZR height));
      [ reflexivity | unfold Rdiv; ring ]. }
  assert (Hratio : IZR width / IZR height <> 0).
  { unfold Rdiv. apply Rmult_integral_contrapositive_currified;
      [ apply not_0_IZR; lia | apply Rinv_neq_0_compat, not_0_IZR; lia ]. }
  rewrite !(py_div_ok _ _ Hratio), !bind_ok.
  assert (height = 1%Z) as -> by lia.
  now rewrite (py_div_by_zero _ (IZR (1 - 1))).
Qed.

Lemma render_raise_run (sc : Scene.t) (width height : Z) (e : exn) :
  Scene.render sc width height = Raise e <->
  Scene.render_run sc width height = Raise e.
Proof.
  unfold Scene.render.
  destruct (Scene.render_run sc width height) as [st | e']; simpl;
    split; intros H; try discriminate; now injection H as ->.
Qed.

Lemma render_raise_pixel (sc : Scene.t) (width height : Z) (e : exn) :
  width <> 0%Z -> width <> 1%Z -> height <> 0%Z -> height <> 1%Z ->
  Scene.render sc width height = Raise e ->
  exists i j : Z,
    (0 <= i < width)%Z /\ (0 <= j < height)%Z
    /\ ((Scene.camera sc = None /\ e = TypeError)
        \/ (exists cam,
              Scene.camera sc = Some cam /\ Scene.lights sc = []
              /\ e = UnboundLocalError
              /\ exists o, In o (Scene.objects sc)
                           /\ Sphere.intersect o
                                (pixel_ray cam width height i j) <> None)).
Proof.
  intros Hw0 Hw1 Hh0 Hh1 Hraise.
  apply render_raise_run in Hraise.
  rewrite render_run_loop in Hraise by assumption.
  exact (render_loop_raise sc width height _ _ _ _ e Hraise).
Qed.

(** X21: [render] raises [ZeroDivisionError] exactly when the width or the
    height is 0 or 1, whatever the scene. *)
Theorem render_zero_division (sc : Scene.t) (width height : Z) :
  Scene.render sc width height = Raise ZeroDivisionError <->
  (width = 0 \/ width = 1 \/ height = 0 \/ height = 1)%Z.
Proof.
  split.
  - intros Hraise.
    destruct (Z.eq_dec width 0%Z) as [Hw0 | Hw0]; [ now left | ].
    destruct (Z.eq_dec width 1%Z) as [Hw1 | Hw1]; [ now right; left | ].
    destruct (Z.eq_dec height 0%Z) as [Hh0 | Hh0];
      [ now right; right; left | ].
    destruct (Z.eq_dec height 1%Z) as [Hh1 | Hh1];
      [ now right; right; right | ].
    exfalso.
    destruct (render_raise_pixel sc width height _ Hw0 Hw1 Hh0 Hh1 Hraise)
      as (i & j & _ & _ & [[_ He] | (cam & _ & _ & He & _)]);
      discriminate.
  - intros Hbad. apply render_raise_run.
    now apply render_run_zero_division.
Qed.

(** X22: every exception that [render] raises is a [ZeroDivisionError] for
    a width or height of 0 or 1, a [TypeError] for a scene without camera,
    or an [UnboundLocalError] for a scene without light in which the ray of
    some pixel meets an object; a pixel write never fails and [render]
    never raises [IndexError] or [ValueError]. *)
Theorem render_error_cases (sc : Scene.t) (width height : Z) (e : exn) :
  Scene.render sc width height = Raise e ->
  (e = ZeroDivisionError
   /\ (width = 0 \/ width = 1 \/ height = 0 \/ height = 1)%Z)
  \/ (e = TypeError /\ Scene.camera sc = None
      /\ (1 < width)%Z /\ (1 < height)%Z)
  \/ (e = UnboundLocalError /\ Scene.lights sc = []
      /\ exists (cam : Point) (i j : Z) (o : Sphere.t),
           Scene.camera sc = Some cam
           /\ (0 <= i < width)%Z /\ (0 <= j < height)%Z
           /\ In o (Scene.objects sc)
           /\ Sphere.intersect o (pixel_ray cam width height i j) <> None).
Proof.
  intros Hraise.
  destruct (Z.eq_dec width 0%Z) as [Hw0 | Hw0];
    [ | destruct (Z.eq_dec width 1%Z) as [Hw1 | Hw1];
        [ | destruct (Z.eq_dec height 0%Z) as [Hh0 | Hh0];
            [ | destruct (Z.eq_dec height 1%Z) as [Hh1 | Hh1] ] ] ].
  1-4: left;
    assert (Hbad : (width = 0 \/ width = 1 \/ height = 0 \/ height = 1)%Z)
      by lia;
    apply render_raise_run in Hraise;
    rewrite (render_run_zero_division sc width height Hbad) in Hraise;
    injection Hraise as <-; now split.
  right.
  destruct (render_raise_pixel sc width height e Hw0 Hw1 Hh0 Hh1 Hraise)
    as (i & j & Hi & Hj & [[Hcam He] | (cam & Hcam & Hls & He & o & Hin & Hhit)]).
  - left. repeat split; try assumption; lia.
  - right. split; [ exact He | ]. split; [ exact Hls | ].
    exists cam, i, j, o. now repeat split.
Qed.

Lemma render_error_cases_witness :
  (ZeroDivisionError = ZeroDivisionError
   /\ (1 = 0 \/ 1 = 1 \/ 1 = 0 \/ 1 = 1)%Z)
  \/ (ZeroDivisionError = TypeError /\ Scene.camera Scene.init = None
      /\ (1 < 1)%Z /\ (1 < 1)%Z)
  \/ (ZeroDivisionError = UnboundLocalError /\ Scene.lights Scene.init = []
      /\ exists (cam : Point) (i j : Z) (o : Sphere.t),
           Scene.camera Scene.init = Some cam
           /\ (0 <= i < 1)%Z /\ (0 <= j < 1)%Z
           /\ In o (Scene.objects Scene.init)
           /\ Sphere.intersect o (pixel_ray cam 1 1 i j) <> None).
Proof.
  apply (render_error_cases Scene.init 1 1 ZeroDivisionError).
  apply render_raise_run. apply render_run_zero_division. lia.
Defined.

Lemma range_cons (n : Z) :
  (0 < n)%Z -> exists rest, range n = 0%Z :: rest.
Proof.
  intros Hn. unfold range.
  destruct (Z.to_nat n) as [ | k] eqn:Hk; [ lia | ].
  simpl. now eexists.
Qed.

Lemma render_row_no_camera (sc : Scene.t) (width : Z)
    (x0 x_step y0 y_step : R) (st : Scene.render_state) (j : Z) :
  Scene.camera sc = None ->
  (0 < width)%Z ->
  Scene.render_row sc width x0 x_step y0 y_step st j = Raise TypeError.
Proof.
  intros Hcam Hw. unfold Scene.render_row.
  destruct (range_cons width Hw) as [cols ->].
  cbn [for_in]. unfold Scene.render_pixel. now rewrite Hcam.
Qed.

(** X23: for a width and a height greater than 1, [render] raises
    [TypeError] exactly when the scene has no camera; it does so at the
    first pixel, before anything is traced. *)
Theorem render_type_error (sc : Scene.t) (width height : Z) :
  (1 < width)%Z ->
  (1 < height)%Z ->
  (Scene.render sc width height = Raise TypeError <->
   Scene.camera sc = None).
Proof.
  intros Hw Hh. split.
  - intros Hraise.
    destruct (render_raise_pixel sc width height TypeError) as
      (i & j & _ & _ & [[Hcam _] | (cam & _ & _ & He & _)]);
      try assumption; try lia; discriminate.
  - intros Hcam. apply render_raise_run.
    rewrite render_run_loop by lia.
    destruct (range_cons height) as [rows ->]; [ lia | ].
    cbn [for_in]. now rewrite render_row_no_camera by (assumption || lia).
Qed.

Lemma render_type_error_witness :
  Scene.render Scene.init 2 2 = Raise TypeError <->
  Scene.camera Scene.init = None.
Proof.
  apply (render_type_error Scene.init 2 2); lia.
Defined.

(** ** Image.__init__ and Image.write_ppm *)

Lemma lookup_map {A B : Type} (f : A -> B) (l : list A) (i : nat) :
  map f l !! i = option_map f (l !! i).
Proof.
  revert i. induction l as [ | a l IH]; intros [ | i]; simpl; auto.
Qed.

Lemma lookup_range (n : Z) (i : nat) :
  range n !! i
  = if (Z.of_nat i <? n)%Z then Some (Z.of_nat i) else None.
Proof.
  unfold range. rewrite lookup_map.
  destruct (Z.ltb_spec (Z.of_nat i) n) as [Hlt | Hge].
  - rewrite lookup_seq_lt by lia. reflexivity.
  - rewrite lookup_seq_ge by lia. reflexivity.
Qed.

Lemma cell_init (width height : Z) (i j : nat) :
  cell (Image.init width height) i j
  = if ((Z.of_nat i <? width) && (Z.of_nat j <? height))%Z
    then Some None else None.
Proof.
  unfold cell, Image.init; simpl.
  rewrite lookup_map, lookup_range.
  destruct (Z.of_nat j <? height)%Z; simpl;
    [ | now rewrite andb_false_r ].
  rewrite lookup_map, lookup_range, andb_true_r.
  now destruct (Z.of_nat i <? width)%Z.
Qed.

Lemma string_length_app (s1 s2 : string) :
  String.length (s1 ++ s2) = (String.length s1 + String.length s2)%nat.
Proof. induction s1 as [ | c s1 IH]; simpl; [ reflexivity | now rewrite IH ]. Qed.

Lemma format3_length (n : Z) :
  (0 <= n <= 255)%Z -> String.length (format3 n) = 3%nat.
Proof.
  intros Hn.
  assert (Hall : forallb
                   (fun k => Nat.eqb (String.length (format3 (Z.of_nat k))) 3)
                   (seq 0 256) = true) by (vm_compute; reflexivity).
  rewrite forallb_forall in Hall.
  specialize (Hall (Z.to_nat n)). rewrite Z2Nat.id in Hall by lia.
  apply Nat.eqb_eq, Hall, in_seq. lia.
Qed.

Lemma to_byte_three (c : Color.t) :
  exists r g b : Z,
    Image.to_byte c = [r; g; b]
    /\ (0 <= r <= 255)%Z /\ (0 <= g <= 255)%Z /\ (0 <= b <= 255)%Z.
Proof.
  unfold Image.to_byte, Color.rgb; simpl. rewrite !py_clamp.
  do 3 eexists. split; [ reflexivity | ]. unfold clamp. lia.
Qed.

Lemma prefix_trans (s1 s2 s3 : string) :
  String.prefix s1 s2 = true -> String.prefix s2 s3 = true ->
  String.prefix s1 s3 = true.
Proof.
  revert s2 s3. induction s1 as [ | a s1 IH]; intros s2 s3 H12 H23;
    [ now destruct s3 | ].
  destruct s2 as [ | b s2]; [ discriminate | ].
  destruct s3 as [ | c s3]; [ discriminate | ].
  simpl in *.
  destruct (ascii_dec a b) as [-> | ]; [ | discriminate ].
  destruct (ascii_dec b c) as [-> | ]; [ | discriminate ].
  now apply (IH s2 s3).
Qed.

Lemma prefix_app (s rest : string) : String.prefix s (s ++ rest) = true.
Proof.
  induction s as [ | a s IH]; simpl; [ now destruct rest | ].
  rewrite IH. now destruct (ascii_dec a a).
Qed.

Lemma prefix_refl (s : string) : String.prefix s s = true.
Proof.
  induction s as [ | a s IH]; simpl; [ reflexivity | ].
  rewrite IH. now destruct (ascii_dec a a).
Qed.

Lemma write_pixel_some (out : string) (c : Color.t) :
  exists out',
    write_pixel out (Some c) = Wrote out'
    /\ String.length out' = (String.length out + 12)%nat
    /\ String.prefix out out' = true.
Proof.
  destruct (to_byte_three c) as (r & g & b & Heq & Hr & Hg & Hb).
  unfold write_pixel. rewrite Heq. eexists. split; [ reflexivity | ].
  split.
  - rewrite !string_length_app, !format3_length by assumption.
    simpl. lia.
  - apply prefix_app.
Qed.

Lemma write_cells_filled (row : list (option Color.t)) :
  Forall (fun c : option Color.t => c <> None) row ->
  forall out,
  exists out',
    write_cells out row = Wrote out'
    /\ String.length out' = (String.length out + 12 * length row)%nat
    /\ String.prefix out out' = true.
Proof.
  induction 1 as [ | color row Hc _ IH]; intros out; simpl.
  - exists out. split; [ reflexivity | ]. split; [ lia | ].
    apply prefix_refl.
  - destruct color as [c | ]; [ | contradiction ].
    destruct (write_pixel_some out c) as (out1 & -> & Hlen1 & Hpre1).
    destruct (IH out1) as (out2 & -> & Hlen2 & Hpre2).
    exists out2. split; [ reflexivity | ]. split; [ lia | ].
    now apply (prefix_trans out out1 out2).
Qed.

Lemma write_rows_filled (width : nat) (rows : list (list (option Color.t))) :
  Forall (fun row : list (option Color.t) =>
            length row = width
            /\ Forall (fun c : option Color.t => c <> None) row) rows ->
  forall out,
  exists out',
    write_rows out rows = Wrote out'
    /\ String.length out'
       = (String.length out + length rows * (12 * width + 1))%nat
    /\ String.prefix out out' = true.
Proof.
  induction 1 as [ | row rows [Hlen Hrow] _ IH]; intros out; simpl.
  - exists out. split; [ reflexivity | ]. split; [ lia | ].
    apply prefix_refl.
  - destruct (write_cells_filled row Hrow out) as (out1 & -> & Hlen1 & Hpre1).
    destruct (IH (out1 ++ newline)%string) as (out2 & -> & Hlen2 & Hpre2).
    exists out2. split; [ reflexivity | ]. split.
    + rewrite Hlen2, string_length_app, Hlen1, Hlen. simpl. lia.
    + apply (prefix_trans out out1 out2); [ exact Hpre1 | ].
      apply (prefix_trans out1 (out1 ++ newline) out2);
        [ apply prefix_app | exact Hpre2 ].
Qed.






(** X24: a new image is well formed and all its cells are unset: the cell
    in column [i] of row [j] exists, and is empty, exactly when
    [i < width] and [j < height]. *)
Theorem image_init_cells (width height : Z) (i j : nat) :
  wf_image (Image.init width height)
  /\ Image.width (Image.init width height) = width
  /\ Image.height (Image.init width height) = height
  /\ cell (Image.init width height) i j
     = if ((Z.of_nat i <? width) && (Z.of_nat j <? height))%Z
       then Some None else None.
Proof.
  split; [ apply wf_image_init | ]. split; [ reflexivity | ].
  split; [ reflexivity | apply cell_init ].
Qed.

(** X25: for a path that ends in ".ppm" and a well-formed image in which
    every cell holds a colour, [write_ppm] writes a text that starts with
    the header [P3 width height], a line break, [255] and a line break,
    followed for each row by 12 characters per pixel and a line break. *)
Theorem write_ppm_filled (img : Image.t) (path : string) :
  wf_image img ->
  Forall (Forall (fun c : option Color.t => c <> None)) (Image.pixels img) ->
  endswith path ".ppm" = true ->
  exists text : string,
    write_ppm img path = Wrote text
    /\ String.prefix (ppm_header img) text = true
    /\ String.length text
       = (String.length (ppm_header img)
          + Z.to_nat (Image.height img)
            * (12 * Z.to_nat (Image.width img) + 1))%nat.
Proof.
  intros [Hrows Hcols] Hfilled Hpath. unfold write_ppm. rewrite Hpath.
  destruct (write_rows_filled (Z.to_nat (Image.width img))
              (Image.pixels img)) with (out := ppm_header img)
    as (text & Heq & Hlen & Hpre).
  - rewrite Forall_forall in Hcols, Hfilled. apply Forall_forall.
    intros row Hin. split; [ now apply Hcols | now apply Hfilled ].
  - exists text. split; [ exact Heq | ]. split; [ exact Hpre | ].
    now rewrite Hlen, Hrows.
Qed.

Lemma write_ppm_filled_witness :
  exists text : string,
    write_ppm (Image.mk 1 1 [[Some WHITE]]) "out.ppm" = Wrote text
    /\ String.prefix (ppm_header (Image.mk 1 1 [[Some WHITE]])) text = true
    /\ String.length text
       = (String.length (ppm_header (Image.mk 1 1 [[Some WHITE]]))
          + Z.to_nat 1 * (12 * Z.to_nat 1 + 1))%nat.
Proof.
  apply (write_ppm_filled (Image.mk 1 1 [[Some WHITE]]) "out.ppm").
  - split; [ reflexivity | ]. repeat constructor.
  - repeat constructor. discriminate.
  - reflexivity.
Defined.





(** ** Building a scene *)

Lemma for_in_app {A S : Type} (body : S -> A -> result S) (l1 l2 : list A) :
  forall s, for_in (l1 ++ l2) body s = for_in l1 body s ≫= for_in l2 body.
Proof.
  induction l1 as [ | a l1 IH]; intros s; simpl; [ reflexivity | ].
  destruct (body s a) as [s1 | e]; simpl; [ apply IH | reflexivity ].
Qed.

Lemma find_nearest_loop_misses (ray : Ray.t) (new : list Sphere.t) :
  (forall o, In o new -> Sphere.intersect o ray = None) ->
  forall st, for_in new (Scene.find_nearest_step ray) st = Ok st.
Proof.
  induction new as [ | o new IH]; intros Hmiss st; [ reflexivity | ].
  cbn [for_in].
  assert (Hstep : Scene.find_nearest_step ray st o = Ok st).
  { unfold Scene.find_nearest_step. now rewrite (Hmiss o) by now left. }
  rewrite Hstep, bind_ok.
  apply IH. intros o' Hin. apply Hmiss. now right.
Qed.

(** X28: objects that a ray misses do not matter to it: adding them to the
    scene changes neither what [find_nearest] answers for that ray nor what
    [trace] answers. *)
Theorem add_objects_missed (sc : Scene.t) (new : list Sphere.t)
    (ray : Ray.t) :
  (forall o, In o new -> Sphere.intersect o ray = None) ->
  Scene.find_nearest (Scene.add_objects sc new) ray
  = Scene.find_nearest sc ray
  /\ Scene.trace (Scene.add_objects sc new) ray = Scene.trace sc ray.
Proof.
  intros Hmiss.
  assert (Hfind : Scene.find_nearest (Scene.add_objects sc new) ray
                  = Scene.find_nearest sc ray).
  { unfold Scene.find_nearest, Scene.add_objects; simpl.
    rewrite for_in_app.
    destruct (for_in (Scene.objects sc) (Scene.find_nearest_step ray)
                (None, None)) as [st | e]; simpl; [ | reflexivity ].
    now rewrite find_nearest_loop_misses. }
  split; [ exact Hfind | ].
  unfold Scene.trace. rewrite Hfind. reflexivity.
Qed.

Lemma add_objects_missed_witness :
  Scene.trace
    (Scene.add_objects (demo_scene [white_light])
       [Sphere.mk (Vector.mk 0 5 0) 1 (Material.default RED)])
    demo_ray
  = Scene.trace (demo_scene [white_light]) demo_ray.
Proof.
  apply (add_objects_missed (demo_scene [white_light])
           [Sphere.mk (Vector.mk 0 5 0) 1 (Material.default RED)] demo_ray).
  intros o [<- | []].
  apply (intersect_miss_far_line
           (Sphere.mk (Vector.mk 0 5 0) 1 (Material.default RED)) demo_ray).
  unfold Vector.squared_norm, Vector.dot, Vector.cross, Vector.sub; simpl.
  lra.
Defined.

(** ** Scene.render without lights *)

Lemma for_in_ok_each {A S : Type} (body : S -> A -> result S)
    (rest : list A) :
  forall s s' : S,
    for_in rest body s = Ok s' ->
    forall a, In a rest -> exists s1 s2, body s1 a = Ok s2.
Proof.
  induction rest as [ | b rest IH]; intros s s' Hok a Hin; [ contradiction | ].
  simpl in Hok. destruct (body s b) as [s1 | e] eqn:Hbody; simpl in Hok;
    [ | discriminate ].
  destruct Hin as [<- | Hin].
  - now exists s, s1.
  - now apply (IH s1 s' Hok).
Qed.

Lemma render_pixel_ok_trace (sc : Scene.t) (x0 x_step y0 y_step : R)
    (i j : Z) (st st' : Scene.render_state) :
  Scene.render_pixel sc x0 x_step (y0 + IZR j * y_step) j st i = Ok st' ->
  exists cam c,
    Scene.camera sc = Some cam
    /\ Scene.trace sc (sample_ray cam x0 x_step y0 y_step i j) = Ok c.
Proof.
  unfold Scene.render_pixel.
  destruct (Scene.camera sc) as [cam | ]; [ | discriminate ].
  fold (sample_ray cam x0 x_step y0 y_step i j).
  destruct (Scene.trace sc (sample_ray cam x0 x_step y0 y_step i j))
    as [c | e] eqn:Htrace; simpl; [ | discriminate ].
  intros _. exists cam, c. split; [ reflexivity | exact Htrace ].
Qed.

Lemma render_ok_traces (sc : Scene.t) (width height : Z) (img : Image.t)
    (i j : Z) :
  (1 < width)%Z -> (1 < height)%Z ->
  Scene.render sc width height = Ok img ->
  (0 <= i < width)%Z -> (0 <= j < height)%Z ->
  exists cam c,
    Scene.camera sc = Some cam
    /\ Scene.trace sc (pixel_ray cam width height i j) = Ok c.
Proof.
  intros Hw Hh Hrender Hi Hj. unfold Scene.render in Hrender.
  destruct (Scene.render_run sc width height) as [st | e] eqn:Hrun;
    [ | discriminate ].
  rewrite render_run_loop in Hrun by lia.
  destruct (for_in_ok_each _ _ _ _ Hrun j) as (s1 & s2 & Hrow);
    [ now apply in_range | ].
  unfold Scene.render_row in Hrow.
  destruct (for_in_ok_each _ _ _ _ Hrow i) as (t1 & t2 & Hpix);
    [ now apply in_range | ].
  exact (render_pixel_ok_trace sc _ _ _ _ i j t1 t2 Hpix).
Qed.

Lemma trace_unbound (sc : Scene.t) (ray : Ray.t) (cam : Point) :
  Scene.camera sc = Some cam ->
  Scene.lights sc = [] ->
  (exists o, In o (Scene.objects sc) /\ Sphere.intersect o ray <> None) ->
  Scene.trace sc ray = Raise UnboundLocalError.
Proof.
  intros Hcam Hls Hhit.
  destruct (find_nearest_hit sc ray Hhit) as (p & o & Hfound).
  unfold Scene.trace. rewrite Hfound; simpl.
  rewrite color_at_unbound by assumption. now rewrite Hcam.
Qed.

(** X29: for a scene with a camera and no light, and a width and a height
    greater than 1, [render] raises [UnboundLocalError] exactly when the ray
    of some pixel meets an object of the scene, and returns an image exactly
    when no pixel's ray meets any object. *)
Theorem render_without_lights (sc : Scene.t) (cam : Point)
    (width height : Z) :
  Scene.camera sc = Some cam ->
  Scene.lights sc = [] ->
  (1 < width)%Z ->
  (1 < height)%Z ->
  (Scene.render sc width height = Raise UnboundLocalError <->
   exists (i j : Z) (o : Sphere.t),
     (0 <= i < width)%Z /\ (0 <= j < height)%Z
     /\ In o (Scene.objects sc)
     /\ Sphere.intersect o (pixel_ray cam width height i j) <> None)
  /\ ((exists img, Scene.render sc width height = Ok img) <->
      ~ exists (i j : Z) (o : Sphere.t),
          (0 <= i < width)%Z /\ (0 <= j < height)%Z
          /\ In o (Scene.objects sc)
          /\ Sphere.intersect o (pixel_ray cam width height i j) <> None).
Proof.
  intros Hcam Hls Hw Hh.
  assert (Hraise : (exists (i j : Z) (o : Sphere.t),
                      (0 <= i < width)%Z /\ (0 <= j < height)%Z
                      /\ In o (Scene.objects sc)
                      /\ Sphere.intersect o (pixel_ray cam width height i j)
                         <> None) ->
                   Scene.render sc width height = Raise UnboundLocalError).
  { intros (i & j & o & Hi & Hj & Hin & Hhit).
    destruct (Scene.render sc width height) as [img | e] eqn:Hrender.
    - exfalso.
      destruct (render_ok_traces sc width height img i j Hw Hh Hrender Hi Hj)
        as (cam' & c & Hcam' & Htrace).
      rewrite Hcam in Hcam'. injection Hcam' as <-.
      rewrite (trace_unbound sc _ cam Hcam Hls) in Htrace;
        [ discriminate | now exists o ].
    - destruct (render_raise_pixel sc width height e) as
        (i' & j' & _ & _ & [[Hnone _] | (cam' & _ & _ & -> & _)]);
        try assumption; try lia; [ | reflexivity ].
      rewrite Hcam in Hnone. discriminate. }
  assert (Hhit : Scene.render sc width height = Raise UnboundLocalError ->
                 exists (i j : Z) (o : Sphere.t),
                   (0 <= i < width)%Z /\ (0 <= j < height)%Z
                   /\ In o (Scene.objects sc)
                   /\ Sphere.intersect o (pixel_ray cam width height i j)
                      <> None).
  { intros Hrender.
    destruct (render_raise_pixel sc width height UnboundLocalError) as
      (i & j & Hi & Hj & [[_ He] | (cam' & Hcam' & _ & _ & o & Hin & Ho)]);
      try assumption; try lia; [ discriminate | ].
    rewrite Hcam in Hcam'. injection Hcam' as <-.
    now exists i, j, o. }
  split; [ now split | ]. split.
  - intros [img Hok] Hex. rewrite (Hraise Hex) in Hok. discriminate.
  - intros Hno.
    destruct (render_content_total sc cam width height Hcam Hw Hh)
      as (img & Hrender & _); [ | now exists img ].
    intros i j Hi Hj.
    destruct (trace_background_or_nearest_cases sc
                (pixel_ray cam width height i j))
      as [[Hbg _] | (o & t & _ & Hin & Ho & _)];
      [ eexists; exact Hbg | ].
    exfalso. apply Hno. exists i, j, o.
    split; [ exact Hi | ]. split; [ exact Hj | ]. split; [ exact Hin | ].
    rewrite Ho. discriminate.
Qed.

Lemma render_without_lights_witness :
  (exists img, Scene.render (Scene.set_camera Scene.init demo_camera) 2 2
               = Ok img) <->
  ~ exists (i j : Z) (o : Sphere.t),
      (0 <= i < 2)%Z /\ (0 <= j < 2)%Z
      /\ In o (Scene.objects (Scene.set_camera Scene.init demo_camera))
      /\ Sphere.intersect o (pixel_ray demo_camera 2 2 i j) <> None.
Proof.
  apply (render_without_lights (Scene.set_camera Scene.init demo_camera)
           demo_camera 2 2); [ reflexivity | reflexivity | lia | lia ].
Defined.

(** ** Ray.bg_color *)

Lemma py_round_nonpos (v : R) : v <= 0 -> (py_round v <= 0)%Z.
Proof.
  intros Hv. pose proof (py_round_nearest v) as Hn.
  assert (Hlt : IZR (py_round v) < IZR 1).
  { unfold Rabs in Hn.
    destruct (Rcase_abs (IZR (py_round v) - v)); simpl; lra. }
  apply lt_IZR in Hlt. lia.
Qed.

Lemma y_le_norm (v : Vector.t) :
  - Vector.norm v <= Vector.y v <= Vector.norm v.
Proof.
  pose proof (norm_nonneg v) as Hn. pose proof (norm_sqr v) as Hs.
  unfold Vector.squared_norm, Vector.dot in Hs.
  assert (Hy : Vector.y v * Vector.y v <= Vector.norm v * Vector.norm v)
    by nra.
  split; nra.
Qed.

(** X30: for a ray whose direction is not the zero vector, the background
    colour is a grey [(t, t, t)] with [-1 <= t <= 1], [t] having the sign
    of the direction's y component; for a direction that points downwards
    or is horizontal it converts to the bytes (0, 0, 0). *)
Theorem bg_color_range (ray : Ray.t) :
  Ray.direction ray <> Vector.mk 0 0 0 ->
  exists t : R,
    -1 <= t <= 1
    /\ Ray.bg_color ray = Color.mk t t t
    /\ (0 <= Vector.y (Ray.direction ray) -> 0 <= t)
    /\ (Vector.y (Ray.direction ray) <= 0 ->
        t <= 0 /\ Image.to_byte (Ray.bg_color ray) = [0; 0; 0]%Z).
Proof.
  intros Hdir. pose proof (norm_pos _ Hdir) as Hn.
  pose proof (y_le_norm (Ray.direction ray)) as [Hlo Hhi].
  set (n := Vector.norm (Ray.direction ray)) in *.
  set (y := Vector.y (Ray.direction ray)) in *.
  assert (Hinv : 0 < / n) by now apply Rinv_0_lt_compat.
  exists (y / n). rewrite bg_color_grey. fold n y.
  split; [ | split; [ reflexivity | split ] ].
  - split.
    + apply (Rmult_le_reg_r n); [ exact Hn | ].
      replace (y / n * n) with y by (field; lra). lra.
    + apply (Rmult_le_reg_r n); [ exact Hn | ].
      replace (y / n * n) with y by (field; lra). lra.
  - intros Hy. unfold Rdiv. nra.
  - intros Hy. assert (Ht : y / n <= 0) by (unfold Rdiv; nra).
    split; [ exact Ht | ].
    unfold Image.to_byte, Color.rgb; simpl. rewrite py_clamp.
    assert (Hr : (py_round (y / n * 255) <= 0)%Z)
      by (apply py_round_nonpos; lra).
    unfold clamp. repeat f_equal; lia.
Qed.

Lemma bg_color_range_witness :
  exists t : R,
    -1 <= t <= 1
    /\ Ray.bg_color demo_ray = Color.mk t t t
    /\ (0 <= Vector.y (Ray.direction demo_ray) -> 0 <= t)
    /\ (Vector.y (Ray.direction demo_ray) <= 0 ->
        t <= 0 /\ Image.to_byte (Ray.bg_color demo_ray) = [0; 0; 0]%Z).
Proof.
  apply (bg_color_range demo_ray). simpl. intros [= H]. lra.
Defined.
